(** * Gecko code configuration: parsing, merging and serialising

    A shallow embedding of [Source/Core/Core/GeckoCodeConfig.cpp] and the
    properties of its functions: [BootstrapLocalConfig], [ParseCodes],
    [MarkEnabledCodes], [MarkBootstrapCodes], [MergeCodes], [FillLines]
    and [FillIni].

    Vectors are lists ([push_back] appends at the end), [std::string] is
    [string] (a sequence of bytes), [u32] is [N] with its bound written
    out, and every [void] function that mutates a reference argument
    returns the new value of that argument. *)

From Stdlib Require Import NArith Ascii.
From stdpp Require Import gmap strings list.

Local Open Scope N_scope.

(** ** Characters and [std::string] *)

Definition char_tab : ascii := ascii_of_nat 9.
Definition char_lf  : ascii := ascii_of_nat 10.
Definition char_vt  : ascii := ascii_of_nat 11.
Definition char_ff  : ascii := ascii_of_nat 12.
Definition char_cr  : ascii := ascii_of_nat 13.

(** [s.size() != 0], the test the source writes as [if (s.size())]. *)
Definition nonempty (s : string) : bool :=
  match s with
  | EmptyString => false
  | String _ _ => true
  end.

(** [s.substr(1)] and [std::string(++s.begin(), s.end())], on a string that
    is known to be non-empty wherever the source writes them. *)
Definition substr1 (s : string) : string :=
  match s with
  | EmptyString => EmptyString
  | String _ r => r
  end.

(** Whether the character [c] occurs in [s]. *)
Fixpoint contains (c : ascii) (s : string) : bool :=
  match s with
  | EmptyString => false
  | String d r => Ascii.eqb d c || contains c r
  end.

(** ** [Common/StringUtil]: [StripSpaces] *)

Module StringUtil.

(** The characters [StripSpaces] removes: blank, tab, carriage return and
    line feed. *)
Definition is_blank (c : ascii) : bool :=
  Ascii.eqb c " " || Ascii.eqb c char_tab
  || Ascii.eqb c char_cr || Ascii.eqb c char_lf.

Fixpoint strip_front (s : string) : string :=
  match s with
  | EmptyString => EmptyString
  | String c r => if is_blank c then strip_front r else s
  end.

Fixpoint strip_back (s : string) : string :=
  match s with
  | EmptyString => EmptyString
  | String c r =>
      let r' := strip_back r in
      if is_blank c && negb (nonempty r') then EmptyString else String c r'
  end.

(** Modelled from the spec: [StripSpaces] of [Common/StringUtil.h], which
    the parser calls on an entry's name and whose definition is not part
    of the translated unit.  The spec has the name "trimmed of surrounding
    whitespace": the blanks before the first and after the last non-blank
    character are removed, and a string of blanks becomes empty. *)
Definition StripSpaces (str : string) : string :=
  strip_back (strip_front str).

(** A string that [StripSpaces] has nothing to remove from: neither its
    first nor its last character is a blank. *)
Fixpoint last_blank (s : string) : bool :=
  match s with
  | EmptyString => false
  | String c EmptyString => is_blank c
  | String _ r => last_blank r
  end.

Definition first_blank (s : string) : bool :=
  match s with
  | EmptyString => false
  | String c _ => is_blank c
  end.

Definition trimmed (s : string) : bool :=
  negb (first_blank s) && negb (last_blank s).

End StringUtil.

(** ** [Common/IniFile]: sections of lines *)

Module IniFile.

(** Modelled from the spec: the [IniFile] class of [Common/IniFile.h] is
    the storage service the spec leaves outside the unit, "mapping section
    name to ordered list of text lines" with the two operations
    [get_lines(section)] and [set_lines(section, lines)].  A section that
    was never set has no lines. *)
Abbreviation t := (gmap string (list string)).

Definition GetLines (ini : t) (section : string) : list string :=
  default [] (ini !! section).

Definition SetLines (ini : t) (section : string) (lines : list string) : t :=
  <[section := lines]> ini.

End IniFile.

(** ** [std::istringstream] *)

Module Stream.

(** The unread characters of the buffer and whether the stream is still
    [good()]: once [eofbit] or [failbit] is set every later extraction is
    refused by its sentry, so the two bits are kept as one flag. *)
Record istream := mk_istream { rdbuf : string; good : bool }.

Definition istringstream (s : string) : istream :=
  {| rdbuf := s; good := true |}.

(** [ss.seekg(1, std::ios_base::cur)] on a stream positioned at the start
    of a buffer that holds at least one character. *)
Definition seekg1 (ss : istream) : istream :=
  {| rdbuf := substr1 (rdbuf ss); good := good ss |}.

(** The characters up to the first [delim], and what follows the
    delimiter when there is one. *)
Fixpoint until (delim : ascii) (s : string) : string * option string :=
  match s with
  | EmptyString => (EmptyString, None)
  | String c r =>
      if Ascii.eqb c delim then (EmptyString, Some r)
      else let '(a, b) := until delim r in (String c a, b)
  end.

(** [std::getline(ss, str, delim)]: refused, leaving [str] as it was, when
    the stream is not good; otherwise [str] receives the characters before
    the delimiter, the delimiter is consumed, and running into the end of
    the buffer ends the stream. *)
Definition getline (ss : istream) (str : string) (delim : ascii)
  : istream * string :=
  if good ss then
    match until delim (rdbuf ss) with
    | (got, Some rest) => ({| rdbuf := rest; good := true |}, got)
    | (got, None) => ({| rdbuf := EmptyString; good := false |}, got)
    end
  else (ss, str).

(** [std::isspace] in the classic locale, which the sentry of a formatted
    extraction skips. *)
Definition isspace (c : ascii) : bool :=
  Ascii.eqb c " " || Ascii.eqb c char_tab || Ascii.eqb c char_lf
  || Ascii.eqb c char_vt || Ascii.eqb c char_ff || Ascii.eqb c char_cr.

Fixpoint skipws (s : string) : string :=
  match s with
  | EmptyString => EmptyString
  | String c r => if isspace c then skipws r else s
  end.

Definition hex_digit (c : ascii) : option N :=
  let n := N_of_ascii c in
  if (48 <=? n) && (n <=? 57) then Some (n - 48)
  else if (65 <=? n) && (n <=? 70) then Some (n - 55)
  else if (97 <=? n) && (n <=? 102) then Some (n - 87)
  else None.

(** The longest run of hexadecimal digits at the front of [s]: how many
    there are, the number they spell after [acc], and the rest. *)
Fixpoint digits (acc : N) (s : string) : nat * N * string :=
  match s with
  | EmptyString => (O, acc, EmptyString)
  | String c r =>
      match hex_digit c with
      | Some d => let '(k, v, t) := digits (16 * acc + d) r in (S k, v, t)
      | None => (O, acc, s)
      end
  end.

Definition sign (s : string) : bool * string :=
  match s with
  | String c r =>
      if Ascii.eqb c "-" then (true, r)
      else if Ascii.eqb c "+" then (false, r)
      else (false, s)
  | EmptyString => (false, s)
  end.

(** A leading zero, and the [0x]/[0X] prefix that base sixteen allows.
    The flag tells that a zero was read that counts as a digit. *)
Definition prefix (s : string) : bool * string :=
  match s with
  | String c r =>
      if Ascii.eqb c "0" then
        match r with
        | String x r' =>
            if Ascii.eqb x "x" || Ascii.eqb x "X" then (false, r')
            else (true, r)
        | EmptyString => (true, r)
        end
      else (false, s)
  | EmptyString => (false, s)
  end.

(** One hexadecimal field, as [num_get] reads it for an unsigned target:
    an optional sign, an optional prefix and the digits.  [None] when the
    field holds no digit; otherwise the magnitude, whether a minus sign
    was read, and the unread rest. *)
Definition hex_field (s : string) : option (N * bool * string) :=
  let '(neg, s1) := sign s in
  let '(zero, s2) := prefix s1 in
  let '(k, v, s3) := digits 0 s2 in
  if Nat.eqb k 0 && negb zero then None else Some (v, neg, s3).

Definition u32_max : N := 4294967295.

(** [ss >> std::hex >> v] for [u32 v]: refused when the stream is not
    good; white space is skipped first, and a buffer that ends there ends
    the stream with [v] as it was.  A field without digits stores zero, a
    magnitude above [u32_max] stores [u32_max], and both fail the stream;
    a negated value wraps around.  Reading the last character of the
    buffer ends the stream after the value is stored. *)
Definition extract_hex (ss : istream) (v : N) : istream * N :=
  if good ss then
    match skipws (rdbuf ss) with
    | EmptyString => ({| rdbuf := EmptyString; good := false |}, v)
    | s =>
        match hex_field s with
        | None => ({| rdbuf := s; good := false |}, 0)
        | Some (m, neg, rest) =>
            if u32_max <? m then ({| rdbuf := rest; good := false |}, u32_max)
            else
              ({| rdbuf := rest; good := nonempty rest |},
               if neg then (u32_max + 1 - m) mod (u32_max + 1) else m)
        end
    end
  else (ss, v).

End Stream.

(** ** [namespace Gecko] *)

Module Gecko.

Import StringUtil IniFile Stream.

(** Modelled from the spec: [GeckoCode::Code] of [Core/GeckoCodeConfig.h],
    the spec's Patch: two unsigned numbers, which start at zero, and the
    line they were read from. *)
Record Code := mkCode {
  address : N;
  data : N;
  original_line : string
}.

(** Modelled from the spec: [GeckoCode] of [Core/GeckoCodeConfig.h], the
    spec's Entry.  [enabled] is the spec's [active], [bootstrap_enabled] its
    [default_active] and [user_defined] its [is_local]; the two activation
    flags default to false. *)
Record GeckoCode := mkGeckoCode {
  codes : list Code;
  name : string;
  creator : string;
  notes : list string;
  enabled : bool;
  bootstrap_enabled : bool;
  user_defined : bool
}.

(** [GeckoCode::Code()] and [GeckoCode()]. *)
Definition new_Code : Code :=
  {| address := 0; data := 0; original_line := EmptyString |}.

Definition new_GeckoCode : GeckoCode :=
  {| codes := []; name := EmptyString; creator := EmptyString; notes := [];
     enabled := false; bootstrap_enabled := false; user_defined := false |}.

(** Assignments to one member. *)
Definition set_enabled (b : bool) (g : GeckoCode) : GeckoCode :=
  {| codes := codes g; name := name g; creator := creator g;
     notes := notes g; enabled := b;
     bootstrap_enabled := bootstrap_enabled g;
     user_defined := user_defined g |}.

Definition set_bootstrap_enabled (b : bool) (g : GeckoCode) : GeckoCode :=
  {| codes := codes g; name := name g; creator := creator g;
     notes := notes g; enabled := enabled g;
     bootstrap_enabled := b;
     user_defined := user_defined g |}.

Definition push_note (n : string) (g : GeckoCode) : GeckoCode :=
  {| codes := codes g; name := name g; creator := creator g;
     notes := notes g ++ [n]; enabled := enabled g;
     bootstrap_enabled := bootstrap_enabled g;
     user_defined := user_defined g |}.

Definition push_code (c : Code) (g : GeckoCode) : GeckoCode :=
  {| codes := codes g ++ [c]; name := name g; creator := creator g;
     notes := notes g; enabled := enabled g;
     bootstrap_enabled := bootstrap_enabled g;
     user_defined := user_defined g |}.

(** *** [ParseCodes] *)

(** The [case '$'] arm after the finished entry has been pushed: a fresh
    [GeckoCode], its [user_defined] flag, and the two [getline] calls with
    [StripSpaces] between them. *)
Definition parse_header (line : string) (is_user_ini : bool) : GeckoCode :=
  let gcode := new_GeckoCode in
  let ss := seekg1 (istringstream line) in
  let '(ss, nm) := getline ss (name gcode) "[" in
  let nm := StripSpaces nm in
  let '(ss, cr) := getline ss (creator gcode) "]" in
  {| codes := codes gcode; name := nm; creator := cr; notes := notes gcode;
     enabled := enabled gcode; bootstrap_enabled := bootstrap_enabled gcode;
     user_defined := is_user_ini |}.

(** The [default] arm: [original_line] is assigned before the line is
    scanned, and the scan writes the two numbers. *)
Definition parse_code (line : string) : Code :=
  let new_code := new_Code in
  let ss := istringstream line in
  let '(ss, a) := extract_hex ss (address new_code) in
  let '(ss, d) := extract_hex ss (data new_code) in
  {| address := a; data := d; original_line := line |}.

(** The vector being filled and the entry in progress. *)
Definition parser : Type := list GeckoCode * GeckoCode.

(** [if (gcode.name.size()) gcodes.push_back(gcode);] *)
Definition flush (st : parser) : list GeckoCode :=
  if nonempty (name st.2) then st.1 ++ [st.2] else st.1.

(** One turn of the loop over the lines. *)
Definition parse_line (is_user_ini : bool) (st : parser) (line : string)
  : parser :=
  match line with
  | EmptyString => st
  | String c _ =>
      if Ascii.eqb c "$" then (flush st, parse_header line is_user_ini)
      else if Ascii.eqb c "*" then (st.1, push_note (substr1 line) st.2)
      else (st.1, push_code (parse_code line) st.2)
  end.

(** The loop and the push of the last entry, on the lines of the section. *)
Definition parse_lines (lines : list string) (gcodes : list GeckoCode)
    (is_user_ini : bool) : list GeckoCode :=
  flush (fold_left (parse_line is_user_ini) lines (gcodes, new_GeckoCode)).

Definition ParseCodes (ini : IniFile.t) (gcodes : list GeckoCode)
    (is_user_ini : bool) : list GeckoCode :=
  parse_lines (GetLines ini "Gecko") gcodes is_user_ini.

(** *** [MarkEnabledCodes] and [MarkBootstrapCodes] *)

(** [line.size() == 0 || line[0] != '$'], the test that skips a line. *)
Definition not_marker (line : string) : bool :=
  match line with
  | EmptyString => true
  | String c _ => negb (Ascii.eqb c "$")
  end.

(** The inner loop: every entry whose name is [nm] gets the flag. *)
Definition mark_all (set : bool → GeckoCode → GeckoCode) (nm : string)
    (gcodes : list GeckoCode) : list GeckoCode :=
  map (λ ogcode, if decide (name ogcode = nm) then set true ogcode
                 else ogcode) gcodes.

(** The outer loop, shared by the two functions, which differ in the member
    they assign. *)
Definition mark_lines (set : bool → GeckoCode → GeckoCode)
    (lines : list string) (gcodes : list GeckoCode) : list GeckoCode :=
  fold_left (λ gcodes line,
               if not_marker line then gcodes
               else mark_all set (substr1 line) gcodes)
            lines gcodes.

Definition MarkEnabledCodes (localIni : IniFile.t)
    (gcodes : list GeckoCode) : list GeckoCode :=
  mark_lines set_enabled (GetLines localIni "Gecko_Enabled") gcodes.

Definition MarkBootstrapCodes (globalIni : IniFile.t)
    (gcodes : list GeckoCode) : list GeckoCode :=
  mark_lines set_bootstrap_enabled (GetLines globalIni "Gecko_Enabled") gcodes.

(** *** [MergeCodes] *)

(** The scan of the working set for an entry of the same name. *)
Definition conflict (working_set : list GeckoCode) (local_code : GeckoCode)
  : bool :=
  existsb (λ working_code,
             bool_decide (name working_code = name local_code))
          working_set.

Definition add_local (working_set : list GeckoCode) (local_code : GeckoCode)
  : list GeckoCode :=
  if conflict working_set local_code then working_set
  else working_set ++ [local_code].

Definition MergeCodes (globalIni localIni : IniFile.t)
    (working_set : list GeckoCode) : list GeckoCode :=
  let global_codes := ParseCodes globalIni [] false in
  let working_set :=
    fold_left (λ ws global_code, ws ++ [global_code])
              global_codes working_set in
  let local_codes := ParseCodes localIni [] true in
  fold_left add_local local_codes working_set.

(** *** [FillLines], [FillIni] and [BootstrapLocalConfig] *)

Definition dollar (s : string) : string := String "$" s.

(** The header line of an entry: the name after a dollar sign and, when
    there is a creator, the creator between brackets. *)
Definition header (gcode : GeckoCode) : string :=
  let nm := dollar (name gcode) in
  if nonempty (creator gcode)
  then nm +:+ " [" +:+ creator gcode +:+ "]"
  else nm.

(** The two vectors [FillLines] appends to are passed and returned as a
    pair: the lines of the entries and the lines of the markers. *)
Definition FillLines (out : list string * list string) (gcode : GeckoCode)
  : list string * list string :=
  let '(lines, enabledLines) := out in
  let enabledLines :=
    if enabled gcode then enabledLines ++ [dollar (name gcode)]
    else enabledLines in
  if negb (user_defined gcode) then (lines, enabledLines)
  else
    let lines := lines ++ [header gcode] in
    let lines :=
      fold_left (λ ls code, ls ++ [original_line code]) (codes gcode) lines in
    let lines :=
      fold_left (λ ls note, ls ++ [String "*" note]) (notes gcode) lines in
    (lines, enabledLines).

Definition fill_all (gcodes : list GeckoCode) : list string * list string :=
  fold_left FillLines gcodes ([], []).

Definition FillIni (inifile : IniFile.t) (gcodes : list GeckoCode)
  : IniFile.t :=
  let '(lines, enabledLines) := fill_all gcodes in
  SetLines (SetLines inifile "Gecko" lines) "Gecko_Enabled" enabledLines.

Definition BootstrapLocalConfig (local_ini : IniFile.t)
    (global_codes : list GeckoCode) : IniFile.t :=
  let enabledLines :=
    fold_left (λ ls geckoCode,
                 if bootstrap_enabled geckoCode
                 then ls ++ [dollar (name geckoCode)] else ls)
              global_codes [] in
  SetLines local_ini "Gecko_Enabled" enabledLines.

End Gecko.

(** ** What the specification says, in its own words

    The definitions of this module are not taken from the source: each one
    writes down a notion of the specification, and the theorems below
    compare the source's functions with them. *)

Module GeckoSpec.

Import StringUtil IniFile Stream Gecko.

(** "A local entry is included only if no already-included entry shares
    its name": [included] holds the names of the entries included so far. *)
Fixpoint keep_new (included : list string) (locals : list GeckoCode)
  : list GeckoCode :=
  match locals with
  | [] => []
  | l :: ls =>
      if bool_decide (name l ∈ included) then keep_new included ls
      else l :: keep_new (included ++ [name l]) ls
  end.

(** The entry's name "appears as the remainder of some marker line
    beginning with [$]". *)
Definition marked (lines : list string) (nm : string) : Prop :=
  dollar nm ∈ lines.

#[global] Instance marked_dec (lines : list string) (nm : string)
  : Decision (marked lines nm) := list_elem_of_dec (dollar nm) lines.

(** The lines of one local entry: "a header line, then each patch's
    original text verbatim, in order, then each note as [*] and the note,
    in order". *)
Definition entry_lines (g : GeckoCode) : list string :=
  header g :: map original_line (codes g) ++ map (String "*") (notes g).

(** A patch line: "any other non-empty first character". *)
Definition is_code_line (line : string) : bool :=
  match line with
  | EmptyString => false
  | String c _ => negb (Ascii.eqb c "$") && negb (Ascii.eqb c "*")
  end.

(** The text holds a first hexadecimal number. *)
Definition scans_first (line : string) : bool :=
  match hex_field (skipws line) with
  | Some _ => true
  | None => false
  end.

(** The text "scans as two whitespace-separated hexadecimal unsigned
    integers". *)
Definition scans_two_hex (line : string) : bool :=
  match hex_field (skipws line) with
  | Some (_, _, rest) =>
      match hex_field (skipws rest) with
      | Some _ => true
      | None => false
      end
  | None => false
  end.

(** The four fields the round trip is about. *)
Definition same_text (a b : GeckoCode) : Prop :=
  name a = name b ∧ creator a = creator b
  ∧ map original_line (codes a) = map original_line (codes b)
  ∧ notes a = notes b.

(** The loop invariant for a property [P] of emitted entries: it holds of
    the entries emitted so far, and of the entry in progress once that one
    has a name. *)
Definition parser_inv (P : GeckoCode → Prop) (st : parser) : Prop :=
  Forall P st.1 ∧ (nonempty (name st.2) = true → P st.2).

(** The name a header line gives its entry: what stands between the
    dollar sign and the first opening bracket, stripped. *)
Definition header_name (line : string) : string :=
  StripSpaces (until "[" (substr1 line)).1.

(** A line that begins with an asterisk. *)
Definition is_note_line (line : string) : bool :=
  match line with
  | EmptyString => false
  | String c _ => Ascii.eqb c "*"
  end.

(** The shape of every entry the parser emits from a local file: a local
    entry with both activation flags unset, a name that is not empty, holds
    no opening bracket and is stripped, a creator without a closing
    bracket, and patches whose text is a patch line and whose numbers are
    those scanned from that text. *)
Definition saved_form (g : GeckoCode) : Prop :=
  user_defined g = true ∧ enabled g = false ∧ bootstrap_enabled g = false
  ∧ nonempty (name g) = true
  ∧ contains "[" (name g) = false ∧ trimmed (name g) = true
  ∧ contains "]" (creator g) = false
  ∧ Forall (λ c, is_code_line (original_line c) = true
                 ∧ c = parse_code (original_line c)) (codes g).

(** A text made of hexadecimal digits only, and the number it spells: each
    digit counts sixteen times the digit to its right. *)
Fixpoint all_hex (s : string) : bool :=
  match s with
  | EmptyString => true
  | String c r =>
      match hex_digit c with Some _ => true | None => false end && all_hex r
  end.

Fixpoint hex_value (s : string) : N :=
  match s with
  | EmptyString => 0
  | String c r =>
      default 0 (hex_digit c) * 16 ^ N.of_nat (String.length r) + hex_value r
  end.

(** The entry that a header line with the text [s] and the lines after it
    make, when the patches and notes of the lines before a given patch line
    and after it are told apart: the patches of the lines before, the patch
    [c] of that line, the patches of the lines after.  No entry when the
    header gives no name. *)
Definition block_entry (is_user_ini : bool) (s : string)
    (before : list string) (c : Code) (after : list string)
  : list GeckoCode :=
  if nonempty (header_name (dollar s)) then
    [ {| codes := map parse_code (filter (λ l, is_code_line l = true) before)
                  ++ c :: map parse_code
                            (filter (λ l, is_code_line l = true) after);
         name := header_name (dollar s);
         creator := creator (parse_header (dollar s) is_user_ini);
         notes := map substr1
                    (filter (λ l, is_note_line l = true) (before ++ after));
         enabled := false; bootstrap_enabled := false;
         user_defined := is_user_ini |} ]
  else [].

End GeckoSpec.

(** ** Sample entries and files *)

Module Samples.

Import Gecko IniFile.

(** A local entry with a creator, two patches, the second of which is not
    a pair of numbers, and two notes. *)
Definition max_lives : GeckoCode :=
  {| codes := [ {| address := 67108864; data := 31;
                   original_line := "04000000 0000001f" |};
                {| address := 0; data := 0;
                   original_line := "not a number" |} ];
     name := "Max Lives"; creator := "someone";
     notes := ["first note"; ""];
     enabled := true; bootstrap_enabled := false; user_defined := true |}.

(** A local entry whose name holds an opening bracket. *)
Definition bracketed : GeckoCode :=
  {| codes := []; name := "A[B"; creator := "c"; notes := [];
     enabled := false; bootstrap_enabled := false; user_defined := true |}.

(** Three global entries, the first and the last enabled. *)
Definition three_globals : list GeckoCode :=
  [ set_enabled true (parse_header "$A" false);
    parse_header "$B" false;
    set_enabled true (parse_header "$C" false) ].

(** A global file with the entries A and B and a local file with the
    entries A and C. *)
Definition global_AB : IniFile.t := SetLines ∅ "Gecko" ["$A"; "$B"].
Definition local_AC : IniFile.t := SetLines ∅ "Gecko" ["$A"; "$C"].

(** A local entry named X that is enabled already. *)
Definition enabled_X : GeckoCode :=
  set_enabled true (parse_header "$X" true).



(** A list to save: two local entries in saved form around a global
    entry. *)
Definition saved_list : list GeckoCode :=
  [ set_enabled false max_lives; parse_header "$Global" false;
    parse_header "$Plain" true ].

(** The lines of an entry after its header line: patches and notes mixed,
    with an empty line among them. *)
Definition mixed_body : list string :=
  ["01 02"; "*first"; ""; "03 04"; "*second"].

(** Two global entries of which the first is default-enabled. *)
Definition seeded : list GeckoCode :=
  [ set_bootstrap_enabled true (parse_header "$A" false);
    parse_header "$B" false ].

(** A global file that marks A, with the entries A and B. *)
Definition global_marks_A : IniFile.t :=
  SetLines global_AB "Gecko_Enabled" ["$A"].

End Samples.

Import StringUtil IniFile Stream Gecko GeckoSpec Samples.

(** ** Vectors *)

Section Vectors.

Context {A : Type}.

(** A loop of [push_back] calls is an append. *)
Lemma push_back_all (xs ws : list A) :
  fold_left (λ ws x, ws ++ [x]) xs ws = ws ++ xs.
Proof.
  revert ws. induction xs as [|x xs IH]; intros ws; simpl.
  - by rewrite app_nil_r.
  - by rewrite IH, <- app_assoc.
Qed.

Lemma push_back_map {B : Type} (f : B → A) (xs : list B) (ws : list A) :
  fold_left (λ ws x, ws ++ [f x]) xs ws = ws ++ map f xs.
Proof.
  revert ws. induction xs as [|x xs IH]; intros ws; simpl.
  - by rewrite app_nil_r.
  - by rewrite IH, <- app_assoc.
Qed.

Lemma push_back_if {B : Type} (p : B → bool) (f : B → A) (xs : list B)
    (ws : list A) :
  fold_left (λ ws x, if p x then ws ++ [f x] else ws) xs ws
  = ws ++ map f (filter (λ x, p x = true) xs).
Proof.
  revert ws. induction xs as [|x xs IH]; intros ws; simpl.
  - by rewrite app_nil_r.
  - rewrite IH. rewrite filter_cons. destruct (p x) eqn:Hp.
    + rewrite decide_True by done. simpl. by rewrite <- app_assoc.
    + rewrite decide_False by done. done.
Qed.

End Vectors.

(** ** [MergeCodes] *)

Section Merge.

Lemma conflict_spec (ws : list GeckoCode) (l : GeckoCode) :
  conflict ws l = bool_decide (name l ∈ map name ws).
Proof.
  unfold conflict. induction ws as [|w ws IH]; simpl.
  - reflexivity.
  - rewrite IH. destruct (decide (name w = name l)) as [E|E].
    + rewrite (bool_decide_eq_true_2 _ E). simpl. symmetry.
      apply bool_decide_eq_true. rewrite E. apply elem_of_cons; by left.
    + rewrite (bool_decide_eq_false_2 _ E). simpl.
      apply bool_decide_ext. rewrite elem_of_cons.
      split; [by right | intros [?|?]; [congruence | done]].
Qed.

Lemma add_locals_spec (locals ws : list GeckoCode) :
  fold_left add_local locals ws = ws ++ keep_new (map name ws) locals.
Proof.
  revert ws. induction locals as [|l ls IH]; intros ws; simpl.
  - by rewrite app_nil_r.
  - unfold add_local at 2. rewrite conflict_spec.
    destruct (bool_decide (name l ∈ map name ws)); [apply IH|].
    rewrite IH, map_app, <- app_assoc. done.
Qed.

Lemma MergeCodes_unfold (globalIni localIni : IniFile.t)
    (ws : list GeckoCode) :
  MergeCodes globalIni localIni ws
  = ws ++ ParseCodes globalIni [] false
       ++ keep_new (map name (ws ++ ParseCodes globalIni [] false))
                   (ParseCodes localIni [] true).
Proof.
  unfold MergeCodes. rewrite push_back_all, add_locals_spec.
  by rewrite <- app_assoc.
Qed.

(** What [keep_new] keeps comes from the local entries, and its names are
    new and pairwise distinct. *)
Lemma keep_new_subset (inc : list string) (ls : list GeckoCode) (e : GeckoCode) :
  e ∈ keep_new inc ls → e ∈ ls ∧ name e ∉ inc.
Proof.
  revert inc. induction ls as [|l ls IH]; intros inc; simpl.
  - by intros ?%elem_of_nil.
  - destruct (decide (name l ∈ inc)) as [Hin|Hin].
    + rewrite (bool_decide_eq_true_2 _ Hin). intros [H1 H2]%IH.
      split; [by apply elem_of_cons; right | done].
    + rewrite (bool_decide_eq_false_2 _ Hin).
      intros [->|[H1 H2]%IH]%elem_of_cons.
      * split; [by apply elem_of_cons; left | done].
      * split; [by apply elem_of_cons; right |].
        intros H3. apply H2, elem_of_app. by left.
Qed.

Lemma keep_new_NoDup (inc : list string) (ls : list GeckoCode) :
  NoDup (map name (keep_new inc ls)).
Proof.
  revert inc. induction ls as [|l ls IH]; intros inc; simpl.
  - constructor.
  - destruct (bool_decide (name l ∈ inc)); [apply IH|].
    simpl. constructor; [|apply IH].
    intros (e & He & [_ Hn]%keep_new_subset)%list_elem_of_fmap.
    apply Hn, elem_of_app. right. rewrite He. by apply list_elem_of_singleton.
Qed.

(** Every local name survives in the merged set: either it was there
    already or the first local entry that carries it is kept. *)
Lemma keep_new_covers (inc : list string) (ls : list GeckoCode) (e : GeckoCode) :
  e ∈ ls → name e ∈ inc ++ map name (keep_new inc ls).
Proof.
  revert inc. induction ls as [|l ls IH]; intros inc; simpl.
  - by intros ?%elem_of_nil.
  - intros [->|Hin]%elem_of_cons.
    + destruct (decide (name l ∈ inc)) as [H|H].
      * rewrite (bool_decide_eq_true_2 _ H). apply elem_of_app. by left.
      * rewrite (bool_decide_eq_false_2 _ H). simpl.
        apply elem_of_app. right. by apply elem_of_cons; left.
    + destruct (bool_decide (name l ∈ inc)); [by apply IH|].
      simpl. specialize (IH (inc ++ [name l]) Hin).
      rewrite <- app_assoc in IH. exact IH.
Qed.

End Merge.

(** ** [ParseCodes]: the loop and what it maintains *)

Section Parser.

Variable is_user_ini : bool.

Lemma parse_lines_app (pre post : list string) (gcodes : list GeckoCode) :
  parse_lines (pre ++ post) gcodes is_user_ini
  = flush (fold_left (parse_line is_user_ini) post
             (fold_left (parse_line is_user_ini) pre (gcodes, new_GeckoCode))).
Proof. unfold parse_lines. by rewrite fold_left_app. Qed.

Lemma ParseCodes_SetLines (ini : IniFile.t) (lines : list string)
    (gcodes : list GeckoCode) :
  ParseCodes (SetLines ini "Gecko" lines) gcodes is_user_ini
  = parse_lines lines gcodes is_user_ini.
Proof.
  unfold ParseCodes, GetLines, SetLines. by rewrite lookup_insert_eq.
Qed.

Lemma name_push_note (n : string) (g : GeckoCode) :
  name (push_note n g) = name g.
Proof. reflexivity. Qed.

Lemma name_push_code (c : Code) (g : GeckoCode) :
  name (push_code c g) = name g.
Proof. reflexivity. Qed.

Lemma nonempty_true (s : string) : nonempty s = true ↔ s ≠ EmptyString.
Proof. destruct s; simpl; split; congruence. Qed.

Lemma nonempty_false (s : string) : nonempty s = false ↔ s = EmptyString.
Proof. destruct s; simpl; split; congruence. Qed.

(** A property of entries that a header establishes whenever it yields a
    name, and that notes and patches do not disturb, holds of everything
    the parser emits. *)
Section Invariant.

Variable P : GeckoCode → Prop.
Hypothesis P_header : ∀ line,
  nonempty (name (parse_header line is_user_ini)) = true →
  P (parse_header line is_user_ini).
Hypothesis P_note : ∀ n g, P g → P (push_note n g).
Hypothesis P_code : ∀ c g, P g → P (push_code c g).

Lemma flush_inv (st : parser) : parser_inv P st → Forall P (flush st).
Proof.
  intros [H1 H2]. unfold flush.
  destruct (nonempty (name st.2)); [|done].
  apply Forall_app. split; [done|]. apply Forall_singleton. by apply H2.
Qed.

Lemma parse_line_inv (st : parser) (line : string) :
  parser_inv P st → parser_inv P (parse_line is_user_ini st line).
Proof.
  intros Hst. unfold parse_line. destruct line as [|c r]; [done|].
  destruct (Ascii.eqb c "$").
  { split; [by apply flush_inv | apply P_header]. }
  destruct Hst as [H1 H2].
  destruct (Ascii.eqb c "*"); (split; [done|]); simpl; intros Hn.
  - apply P_note, H2, Hn.
  - apply P_code, H2, Hn.
Qed.

Lemma fold_parse_line_inv (lines : list string) (st : parser) :
  parser_inv P st → parser_inv P (fold_left (parse_line is_user_ini) lines st).
Proof.
  revert st. induction lines as [|l ls IH]; intros st Hst; simpl; [done|].
  by apply IH, parse_line_inv.
Qed.

Lemma parse_lines_Forall (lines : list string) (gcodes : list GeckoCode) :
  Forall P gcodes → Forall P (parse_lines lines gcodes is_user_ini).
Proof.
  intros Hg. apply flush_inv, fold_parse_line_inv. split; [done|].
  simpl. discriminate.
Qed.

End Invariant.

(** No emitted entry has an empty name. *)
Lemma parse_lines_named (lines : list string) :
  Forall (λ g, name g ≠ EmptyString) (parse_lines lines [] is_user_ini).
Proof.
  apply parse_lines_Forall; [| | |constructor].
  - intros line. by rewrite nonempty_true.
  - done.
  - done.
Qed.

(** Every emitted entry carries the flag of the source it was read from. *)
Lemma parse_lines_user_defined (lines : list string) :
  Forall (λ g, user_defined g = is_user_ini)
         (parse_lines lines [] is_user_ini).
Proof.
  apply parse_lines_Forall; [| | |constructor].
  - intros line _. unfold parse_header.
    destruct (getline _ _ _) as [ss nm].
    by destruct (getline _ _ _) as [ss' cr].
  - done.
  - done.
Qed.

End Parser.

(** ** The merged working set *)

Section MergedSet.

Variables globalIni localIni : IniFile.t.

Local Abbreviation globals := (ParseCodes globalIni [] false).
Local Abbreviation locals := (ParseCodes localIni [] true).


(** C2.  From an empty working set [MergeCodes] yields the entries parsed
    from the global source, in order, followed by exactly those local
    entries whose name is not the name of an entry included before them.
    With global entries named A and B and local entries named A and C the
    result is the two global entries followed by the local C. *)
Theorem MergeCodes_from_empty :
  MergeCodes globalIni localIni []
  = globals ++ keep_new (map name globals) locals
  ∧ ∀ ga gb la lc,
      globals = [ga; gb] → locals = [la; lc] →
      name ga = "A" → name gb = "B" → name la = "A" → name lc = "C" →
      MergeCodes globalIni localIni [] = [ga; gb; lc].
Proof.
  rewrite MergeCodes_unfold. simpl. split; [done|].
  intros ga gb la lc -> -> Ha Hb Ha' Hc. simpl.
  rewrite Ha, Hb, Ha', Hc. reflexivity.
Qed.

(** C10.  [MergeCodes] keeps the entries the working set already holds and
    appends to them the global entries and then the local entries that
    [keep_new] lets through when the names of the earlier entries, the
    pre-existing ones among them, are taken as included: an appended local
    entry has the name of no pre-existing entry, of no global entry and of
    no other appended local entry. *)
Theorem MergeCodes_appends (working_set : list GeckoCode) :
  let added := keep_new (map name (working_set ++ globals)) locals in
  MergeCodes globalIni localIni working_set
  = working_set ++ globals ++ added
  ∧ Forall (λ l, l ∈ locals ∧ (name l ∉ map name working_set)
                 ∧ (name l ∉ map name globals)) added
  ∧ NoDup (map name added)
  ∧ Forall (λ l, name l ∈ map name (working_set ++ globals ++ added)) locals.
Proof.
  intros added. split; [apply MergeCodes_unfold|]. split; [|split].
  - apply Forall_forall. intros l [Hl Hn]%keep_new_subset.
    rewrite map_app, elem_of_app in Hn. split; [done|].
    split; intros H; apply Hn; [by left | by right].
  - apply keep_new_NoDup.
  - apply Forall_forall. intros l Hl.
    rewrite app_assoc, map_app. by apply keep_new_covers.
Qed.

End MergedSet.



Lemma MergeCodes_from_empty_witness :
  MergeCodes global_AB local_AC []
  = [ parse_header "$A" false; parse_header "$B" false;
      parse_header "$C" true ].
Proof.
  apply (proj2 (MergeCodes_from_empty global_AB local_AC)
           _ _ (parse_header "$A" true) _); reflexivity.
Defined.

(** ** [MarkEnabledCodes] and [MarkBootstrapCodes] *)

Section Marking.

(** The member a marking function assigns: assigning it leaves the name
    alone, and assigning true twice is assigning it once. *)
Variable set : bool → GeckoCode → GeckoCode.
Hypothesis set_name : ∀ b g, name (set b g) = name g.
Hypothesis set_twice : ∀ g, set true (set true g) = set true g.

Lemma not_marker_false (line : string) :
  not_marker line = false → line = dollar (substr1 line).
Proof.
  destruct line as [|c r]; simpl; [discriminate|].
  intros H%negb_false_iff%Ascii.eqb_eq. by subst c.
Qed.

Lemma not_marker_true (line : string) :
  not_marker line = true ↔ ∀ nm, line ≠ dollar nm.
Proof.
  destruct line as [|c r]; simpl.
  - split; [discriminate|done].
  - rewrite negb_true_iff, Ascii.eqb_neq. unfold dollar. split.
    + intros Hc nm [= -> _]. done.
    + intros H ->. by apply (H r).
Qed.

Lemma marked_cons (line : string) (lines : list string) (nm : string) :
  marked (line :: lines) nm ↔ line = dollar nm ∨ marked lines nm.
Proof.
  unfold marked. rewrite elem_of_cons. split; intros [H|H]; auto.
Qed.

Lemma mark_lines_spec (lines : list string) (gcodes : list GeckoCode) :
  mark_lines set lines gcodes
  = map (λ g, if bool_decide (marked lines (name g)) then set true g else g)
        gcodes.
Proof.
  unfold mark_lines. revert gcodes.
  induction lines as [|line lines IH]; intros gcodes; simpl.
  - induction gcodes as [|g gs IHg]; [done|]. simpl. by rewrite <- IHg.
  - rewrite IH. destruct (not_marker line) eqn:Hm.
    + apply map_ext. intros g. apply not_marker_true with (nm := name g) in Hm.
      erewrite (bool_decide_ext (marked (line :: lines) (name g))); [done|].
      rewrite marked_cons. split; [|by right]. by intros [?|?].
    + apply not_marker_false in Hm. unfold mark_all. rewrite map_map.
      apply map_ext. intros g.
      destruct (decide (name g = substr1 line)) as [E|E].
      * rewrite set_name.
        rewrite (bool_decide_eq_true_2 (marked (line :: lines) (name g))).
        2:{ apply marked_cons. left. by rewrite E. }
        destruct (bool_decide (marked lines (name g))); [apply set_twice|done].
      * apply (f_equal (λ b : bool, if b then set true g else g)).
        apply bool_decide_ext. rewrite marked_cons. split; [auto|].
        intros [H|H]; [|done]. destruct E. by rewrite H.
Qed.

Lemma mark_lines_skip (pre post : list string) (line : string)
    (gcodes : list GeckoCode) :
  (∀ nm, line ≠ dollar nm) →
  mark_lines set (pre ++ line :: post) gcodes
  = mark_lines set (pre ++ post) gcodes.
Proof.
  intros Hm%not_marker_true. unfold mark_lines.
  rewrite !fold_left_app. simpl. by rewrite Hm.
Qed.

End Marking.

Lemma GetLines_SetLines (ini : IniFile.t) (section : string)
    (lines : list string) :
  GetLines (SetLines ini section lines) section = lines.
Proof. unfold GetLines, SetLines. by rewrite lookup_insert_eq. Qed.

Lemma GetLines_SetLines_ne (ini : IniFile.t) (s1 s2 : string)
    (lines : list string) :
  s1 ≠ s2 → GetLines (SetLines ini s1 lines) s2 = GetLines ini s2.
Proof. intros H. unfold GetLines, SetLines. by rewrite lookup_insert_ne. Qed.

(** C4, as amended.  After [MarkEnabledCodes] an entry's [enabled] flag is
    true when it was true before the call or when the entry's name is the
    remainder of a marker line that begins with a dollar sign, and false
    otherwise; [MarkBootstrapCodes] does the same to [bootstrap_enabled].
    The flag of an entry that enters the call with its flag false is
    therefore decided by the marker section alone. *)
Theorem Mark_flags_accumulate (ini : IniFile.t) (gcodes : list GeckoCode) :
  let lines := GetLines ini "Gecko_Enabled" in
  map enabled (MarkEnabledCodes ini gcodes)
  = map (λ g, enabled g || bool_decide (marked lines (name g))) gcodes
  ∧ map bootstrap_enabled (MarkBootstrapCodes ini gcodes)
    = map (λ g, bootstrap_enabled g || bool_decide (marked lines (name g)))
          gcodes.
Proof.
  intros lines. unfold MarkEnabledCodes, MarkBootstrapCodes. fold lines.
  rewrite !mark_lines_spec by done. rewrite !map_map.
  split; apply map_ext; intros g;
    destruct (bool_decide (marked lines (name g))); simpl;
    by rewrite ?orb_true_r, ?orb_false_r.
Qed.

(** An entry that is enabled before the call stays enabled although no
    marker line names it (against C4 as it is stated). *)
Lemma MarkEnabledCodes_keeps_flag :
  map enabled (MarkEnabledCodes ∅ [enabled_X]) = [true]
  ∧ ¬ marked (GetLines ∅ "Gecko_Enabled") (name enabled_X).
Proof.
  split; [reflexivity|]. vm_compute. by intros ?%elem_of_nil.
Qed.

(** C5.  [MarkEnabledCodes] assigns [enabled = true] to exactly the entries
    whose name is the remainder of a marker line that begins with a dollar
    sign, all of them when several share the name, and leaves every other
    entry as it was; a line that does not begin with a dollar sign, the
    empty line among them, can be removed from the section without
    changing the result.  With fresh entries named X and Y and the marker
    section [$X], X ends up enabled and Y does not. *)
Theorem MarkEnabledCodes_exact (ini : IniFile.t) (gcodes : list GeckoCode) :
  MarkEnabledCodes ini gcodes
  = map (λ g, if bool_decide (marked (GetLines ini "Gecko_Enabled") (name g))
              then set_enabled true g else g) gcodes
  ∧ (∀ pre line post,
       (∀ nm, line ≠ dollar nm) →
       MarkEnabledCodes (SetLines ini "Gecko_Enabled" (pre ++ line :: post))
                        gcodes
       = MarkEnabledCodes (SetLines ini "Gecko_Enabled" (pre ++ post)) gcodes)
  ∧ (∀ x y,
       name x = "X" → name y = "Y" →
       enabled x = false → enabled y = false →
       GetLines ini "Gecko_Enabled" = ["$X"] →
       MarkEnabledCodes ini [x; y] = [set_enabled true x; y]
       ∧ enabled (set_enabled true x) = true ∧ enabled y = false).
Proof.
  split; [by apply mark_lines_spec|]. split.
  - intros pre line post Hl. unfold MarkEnabledCodes.
    rewrite !GetLines_SetLines. by apply mark_lines_skip.
  - intros x y Hx Hy Ex Ey Hlines. unfold MarkEnabledCodes.
    rewrite mark_lines_spec by done. rewrite Hlines. simpl.
    rewrite Hx, Hy. split; [reflexivity|done].
Qed.

Lemma MarkEnabledCodes_exact_witness :
  MarkEnabledCodes (SetLines ∅ "Gecko_Enabled" ["$X"])
                   [parse_header "$X" false; parse_header "$Y" true]
  = [set_enabled true (parse_header "$X" false); parse_header "$Y" true]
  ∧ MarkEnabledCodes (SetLines ∅ "Gecko_Enabled" ["$X"; ""; "Y"; "$x"])
                     [parse_header "$X" false; parse_header "$Y" true]
    = MarkEnabledCodes (SetLines ∅ "Gecko_Enabled" ["$X"; ""; "$x"])
                       [parse_header "$X" false; parse_header "$Y" true].
Proof.
  split.
  - apply (proj2 (proj2 (MarkEnabledCodes_exact
                           (SetLines ∅ "Gecko_Enabled" ["$X"]) [])));
      reflexivity.
  - apply (proj1 (proj2 (MarkEnabledCodes_exact ∅ _)) ["$X"; ""] "Y" ["$x"]).
    intros nm. discriminate.
Defined.

(** ** [FillLines], [FillIni] and [BootstrapLocalConfig] *)

Section Serializer.

Lemma FillLines_spec (lines enabledLines : list string) (g : GeckoCode) :
  FillLines (lines, enabledLines) g
  = (lines ++ (if user_defined g then entry_lines g else []),
     enabledLines ++ (if enabled g then [dollar (name g)] else [])).
Proof.
  unfold FillLines, entry_lines.
  destruct (enabled g), (user_defined g); simpl;
    rewrite ?push_back_map, ?app_nil_r, <- ?app_assoc; reflexivity.
Qed.

Lemma fold_FillLines (gcodes : list GeckoCode) (out : list string * list string) :
  fold_left FillLines gcodes out
  = (out.1 ++ concat (map entry_lines
                        (filter (λ g, user_defined g = true) gcodes)),
     out.2 ++ map (λ g, dollar (name g))
                  (filter (λ g, enabled g = true) gcodes)).
Proof.
  revert out. induction gcodes as [|g gs IH]; intros [ls es];
    cbn [fold_left].
  - simpl. by rewrite !app_nil_r.
  - rewrite FillLines_spec, IH. cbn [fst snd]. rewrite !filter_cons.
    destruct (user_defined g), (enabled g);
      rewrite ?decide_True, ?decide_False by done;
      cbn [map concat]; rewrite ?app_nil_r, <- ?app_assoc; reflexivity.
Qed.

Lemma fill_all_spec (gcodes : list GeckoCode) :
  fill_all gcodes
  = (concat (map entry_lines (filter (λ g, user_defined g = true) gcodes)),
     map (λ g, dollar (name g)) (filter (λ g, enabled g = true) gcodes)).
Proof. unfold fill_all. by rewrite fold_FillLines. Qed.

Lemma FillIni_sections (inifile : IniFile.t) (gcodes : list GeckoCode) :
  GetLines (FillIni inifile gcodes) "Gecko" = (fill_all gcodes).1
  ∧ GetLines (FillIni inifile gcodes) "Gecko_Enabled" = (fill_all gcodes).2.
Proof.
  unfold FillIni. destruct (fill_all gcodes) as [ls es]. simpl.
  rewrite GetLines_SetLines, GetLines_SetLines_ne by done.
  by rewrite GetLines_SetLines.
Qed.

Lemma filter_none (gcodes : list GeckoCode) (p : GeckoCode → bool) :
  Forall (λ g, p g = false) gcodes → filter (λ g, p g = true) gcodes = [].
Proof.
  induction 1 as [|g gs Hg _ IH]; [done|].
  rewrite filter_cons, decide_False by congruence. exact IH.
Qed.

(** C6.  [FillIni] stores as the marker section the line made of a dollar
    sign and the name for every entry whose [enabled] flag is set, global
    or local, in order, and as the entries section the lines of the local
    entries only; when no entry is local the entries section is stored
    empty, while the enabled ones among them still have their marker
    lines. *)
Theorem FillIni_output (inifile : IniFile.t) (gcodes : list GeckoCode) :
  GetLines (FillIni inifile gcodes) "Gecko_Enabled"
  = map (λ g, dollar (name g)) (filter (λ g, enabled g = true) gcodes)
  ∧ GetLines (FillIni inifile gcodes) "Gecko"
    = concat (map entry_lines (filter (λ g, user_defined g = true) gcodes))
  ∧ (Forall (λ g, user_defined g = false) gcodes →
     GetLines (FillIni inifile gcodes) "Gecko" = []
     ∧ length (GetLines (FillIni inifile gcodes) "Gecko_Enabled")
       = length (filter (λ g, enabled g = true) gcodes)).
Proof.
  destruct (FillIni_sections inifile gcodes) as [-> ->].
  rewrite fill_all_spec. simpl. split; [done|]. split; [done|].
  intros Hglobal. rewrite (filter_none _ user_defined Hglobal).
  split; [done|]. by rewrite length_map.
Qed.

Lemma FillIni_output_witness :
  Forall (λ g, user_defined g = false) three_globals
  ∧ GetLines (FillIni ∅ three_globals) "Gecko" = []
  ∧ GetLines (FillIni ∅ three_globals) "Gecko_Enabled" = ["$A"; "$C"].
Proof.
  assert (H : Forall (λ g, user_defined g = false) three_globals).
  { repeat constructor. }
  split; [exact H|]. split.
  - exact (proj1 (proj2 (proj2 (FillIni_output ∅ three_globals)) H)).
  - exact (proj1 (FillIni_output ∅ three_globals)).
Defined.

(** C8.  [BootstrapLocalConfig] stores as the marker section of the local
    file the line made of a dollar sign and the name for every entry whose
    [bootstrap_enabled] flag is set, in the order of the entries, and
    leaves every other section, the entries section among them, as it was.
    With X default-enabled and Y not, the section is the one line [$X]. *)
Theorem BootstrapLocalConfig_output (local_ini : IniFile.t)
    (global_codes : list GeckoCode) :
  GetLines (BootstrapLocalConfig local_ini global_codes) "Gecko_Enabled"
  = map (λ g, dollar (name g))
        (filter (λ g, bootstrap_enabled g = true) global_codes)
  ∧ (∀ section, section ≠ "Gecko_Enabled" →
       BootstrapLocalConfig local_ini global_codes !! section
       = local_ini !! section)
  ∧ (∀ x y,
       global_codes = [x; y] → name x = "X" → name y = "Y" →
       bootstrap_enabled x = true → bootstrap_enabled y = false →
       GetLines (BootstrapLocalConfig local_ini global_codes) "Gecko_Enabled"
       = ["$X"]).
Proof.
  unfold BootstrapLocalConfig.
  rewrite (push_back_if bootstrap_enabled (λ g, dollar (name g))).
  rewrite GetLines_SetLines. simpl. split; [done|]. split.
  - intros section Hs. unfold SetLines. by rewrite lookup_insert_ne.
  - intros x y -> Hx Hy Bx By. rewrite !filter_cons, filter_nil.
    rewrite decide_True, decide_False by congruence. simpl. by rewrite Hx.
Qed.

Lemma BootstrapLocalConfig_output_witness :
  GetLines (BootstrapLocalConfig local_AC
              [ set_bootstrap_enabled true (parse_header "$X" false);
                parse_header "$Y" false ])
           "Gecko_Enabled" = ["$X"]
  ∧ GetLines (BootstrapLocalConfig local_AC
                [ set_bootstrap_enabled true (parse_header "$X" false);
                  parse_header "$Y" false ])
             "Gecko" = ["$A"; "$C"].
Proof.
  split.
  - apply (proj2 (proj2 (BootstrapLocalConfig_output local_AC _))
             (set_bootstrap_enabled true (parse_header "$X" false))
             (parse_header "$Y" false));
      reflexivity.
  - unfold GetLines at 1.
    rewrite (proj1 (proj2 (BootstrapLocalConfig_output local_AC _)) "Gecko");
      [reflexivity | discriminate].
Defined.

End Serializer.

(** ** [ParseCodes]: the end of the input and the lines before a header *)

Section ParserEnd.

Variable is_user_ini : bool.

Local Abbreviation step := (parse_line is_user_ini).

(** Two parsers that emitted the same entries and both hold an entry
    without a name end with the same output: what a nameless entry has
    collected is lost. *)
Lemma nameless_dropped (lines : list string) (st st' : parser) :
  st.1 = st'.1 → name st.2 = EmptyString → name st'.2 = EmptyString →
  flush (fold_left step lines st) = flush (fold_left step lines st').
Proof.
  revert st st'. induction lines as [|l ls IH]; intros st st' H1 H2 H2'.
  - unfold flush. simpl. by rewrite H1, H2, H2'.
  - simpl. destruct l as [|c r]; [by apply IH|]. unfold parse_line.
    destruct (Ascii.eqb c "$").
    { replace (flush st') with (flush st); [done|].
      unfold flush. by rewrite H1, H2, H2'. }
    destruct (Ascii.eqb c "*"); by apply IH.
Qed.

Lemma before_first_header (pre : list string) (st : parser) :
  Forall (λ l, ∀ nm, l ≠ dollar nm) pre →
  (fold_left step pre st).1 = st.1
  ∧ name (fold_left step pre st).2 = name st.2.
Proof.
  intros Hpre. revert st.
  induction Hpre as [|l ls Hl _ IH]; intros st; [done|].
  simpl. destruct (IH (step st l)) as [-> ->].
  apply not_marker_true in Hl. destruct l as [|c r]; [done|].
  simpl in Hl. unfold parse_line.
  destruct (Ascii.eqb c "$"); [done|]. by destruct (Ascii.eqb c "*").
Qed.

(** C9.  When the lines are exhausted, the entry in progress is appended
    to the output if it has a name, with no blank line or header line
    needed after it, and is left out if its name is empty; no emitted entry
    has an empty name, and the patch and note lines that come before the
    first header line leave no trace in the output. *)
Theorem ParseCodes_end_of_input (ini : IniFile.t) :
  let st := fold_left step (GetLines ini "Gecko") ([], new_GeckoCode) in
  (name st.2 ≠ EmptyString →
   ParseCodes ini [] is_user_ini = st.1 ++ [st.2])
  ∧ (name st.2 = EmptyString → ParseCodes ini [] is_user_ini = st.1)
  ∧ Forall (λ g, name g ≠ EmptyString) (ParseCodes ini [] is_user_ini)
  ∧ (∀ pre post,
       GetLines ini "Gecko" = pre ++ post →
       Forall (λ l, ∀ nm, l ≠ dollar nm) pre →
       ParseCodes ini [] is_user_ini = parse_lines post [] is_user_ini).
Proof.
  intros st. unfold ParseCodes, parse_lines. fold st.
  split; [|split; [|split]].
  - intros H%nonempty_true. unfold flush. by rewrite H.
  - intros H%nonempty_false. unfold flush. by rewrite H.
  - apply parse_lines_named.
  - intros pre post Hlines Hpre. subst st. rewrite Hlines, fold_left_app.
    destruct (before_first_header pre ([], new_GeckoCode) Hpre) as [H1 H2].
    by apply nameless_dropped.
Qed.

End ParserEnd.

Lemma ParseCodes_end_of_input_witness :
  ParseCodes (SetLines ∅ "Gecko" ["01 02"; "*lost"; "$A [me]"; "03 04"])
             [] true
  = [ push_code (parse_code "03 04") (parse_header "$A [me]" true) ]
  ∧ ParseCodes (SetLines ∅ "Gecko" ["$A"; "$ [nobody]"; "05 06"]) [] true
    = [ parse_header "$A" true ].
Proof.
  split.
  - refine (proj1 (ParseCodes_end_of_input true
             (SetLines ∅ "Gecko" ["01 02"; "*lost"; "$A [me]"; "03 04"])) _).
    discriminate.
  - refine (proj1 (proj2 (ParseCodes_end_of_input true
             (SetLines ∅ "Gecko" ["$A"; "$ [nobody]"; "05 06"]))) _).
    reflexivity.
Defined.

(** ** [ParseCodes]: patch lines that do not scan *)

Section PatchLines.

Variable is_user_ini : bool.

Local Abbreviation step := (parse_line is_user_ini).

Lemma parse_line_code (st : parser) (line : string) :
  is_code_line line = true →
  step st line = (st.1, push_code (parse_code line) st.2).
Proof.
  destruct line as [|c r]; simpl; [discriminate|].
  intros [H1 H2]%andb_true_iff.
  apply negb_true_iff in H1, H2. by rewrite H1, H2.
Qed.

Lemma parse_code_original_line (line : string) :
  original_line (parse_code line) = line.
Proof.
  unfold parse_code. destruct (extract_hex _ _) as [ss a].
  by destruct (extract_hex _ _) as [ss' d].
Qed.

(** When the text does not hold two numbers the second field keeps the
    zero it was constructed with, and so does the first when the text does
    not even hold one. *)
Lemma parse_code_malformed (line : string) :
  scans_two_hex line = false →
  data (parse_code line) = 0
  ∧ (scans_first line = false → address (parse_code line) = 0).
Proof.
  unfold scans_two_hex, scans_first, parse_code, extract_hex, istringstream.
  cbn [rdbuf good address data new_Code].
  destruct (skipws line) as [|c r] eqn:E1; [by intros _|].
  destruct (hex_field (String c r)) as [[[m neg] rest]|] eqn:E2;
    [|by intros _].
  destruct (u32_max <? m); [by intros _|].
  cbn [rdbuf good]. destruct rest as [|c' r']; [by intros _|].
  cbn [nonempty]. destruct (skipws (String c' r')) as [|c2 r2]; [by intros _|].
  destruct (hex_field (String c2 r2)) as [[[m' neg'] rest']|];
    [discriminate|by intros _].
Qed.

End PatchLines.

(** ** Serialising an entry and parsing it back *)

Section RoundTrip.

Lemma append_cons (c : ascii) (s t : string) :
  String c s +:+ t = String c (s +:+ t).
Proof. reflexivity. Qed.

Lemma append_nil (t : string) : EmptyString +:+ t = t.
Proof. reflexivity. Qed.

Lemma until_delim (d : ascii) (s r : string) :
  contains d s = false → until d (s +:+ String d r) = (s, Some r).
Proof.
  induction s as [|c s IH]; simpl.
  - intros _. by rewrite Ascii.eqb_refl.
  - intros [H1 H2]%orb_false_iff. by rewrite H1, (IH H2).
Qed.

Lemma contains_app (d : ascii) (s t : string) :
  contains d (s +:+ t) = contains d s || contains d t.
Proof.
  induction s as [|c s IH]; [done|].
  rewrite append_cons. simpl. by rewrite IH, orb_assoc.
Qed.

Lemma append_assoc (s t u : string) : (s +:+ t) +:+ u = s +:+ t +:+ u.
Proof.
  induction s as [|c s IH]; [done|]. rewrite !append_cons. by f_equal.
Qed.

Lemma strip_back_blank (s : string) :
  last_blank s = false → strip_back (s +:+ " ") = s.
Proof.
  induction s as [|c s IH]; [done|]. intros H.
  rewrite append_cons. cbn [strip_back].
  destruct s as [|d s].
  - simpl in H. rewrite append_nil. simpl. by rewrite H.
  - rewrite (IH H). simpl. by rewrite andb_false_r.
Qed.

Lemma StripSpaces_trimmed (s : string) :
  trimmed s = true → StripSpaces (s +:+ " ") = s.
Proof.
  unfold trimmed, StripSpaces.
  intros [H1%negb_true_iff H2%negb_true_iff]%andb_true_iff.
  destruct s as [|c s]; [done|]. simpl in H1.
  rewrite append_cons. cbn [strip_front]. rewrite H1.
  rewrite <- append_cons. by apply strip_back_blank.
Qed.

(** The header line of an entry that has a creator is read back as the
    entry's name and creator when the brackets and the blanks of the format
    do not occur where they would be taken for its own. *)
Lemma parse_header_header (g : GeckoCode) (is_user_ini : bool) :
  nonempty (creator g) = true →
  contains "[" (name g) = false → trimmed (name g) = true →
  contains "]" (creator g) = false →
  parse_header (header g) is_user_ini
  = {| codes := []; name := name g; creator := creator g; notes := [];
       enabled := false; bootstrap_enabled := false;
       user_defined := is_user_ini |}.
Proof.
  intros Hc Hn Ht Hcr. unfold header, parse_header. rewrite Hc.
  unfold getline, seekg1, istringstream, dollar.
  rewrite append_cons. cbn [rdbuf good substr1 name creator new_GeckoCode].
  replace (name g +:+ " [" +:+ creator g +:+ "]")
    with ((name g +:+ " ") +:+ String "[" (creator g +:+ "]"))
    by (by rewrite append_assoc).
  rewrite until_delim by (by rewrite contains_app, Hn).
  cbn [rdbuf good]. rewrite (until_delim _ _ _ Hcr).
  by rewrite StripSpaces_trimmed.
Qed.

Lemma parse_code_lines (is_user_ini : bool) (cs : list string) (st : parser) :
  Forall (λ l, is_code_line l = true) cs →
  fold_left (parse_line is_user_ini) cs st
  = (st.1, fold_left (λ g l, push_code (parse_code l) g) cs st.2).
Proof.
  intros H. revert st. induction H as [|l ls Hl _ IH]; intros st; simpl.
  - by destruct st.
  - by rewrite (parse_line_code _ _ _ Hl), IH.
Qed.

Lemma parse_note_lines (is_user_ini : bool) (ns : list string) (st : parser) :
  fold_left (parse_line is_user_ini) (map (String "*") ns) st
  = (st.1, fold_left (λ g n, push_note n g) ns st.2).
Proof.
  revert st. induction ns as [|n ns IH]; intros st; simpl.
  - by destruct st.
  - by rewrite IH.
Qed.

Lemma push_code_all (cs : list string) (g : GeckoCode) :
  let g' := fold_left (λ g l, push_code (parse_code l) g) cs g in
  name g' = name g ∧ creator g' = creator g ∧ notes g' = notes g
  ∧ map original_line (codes g') = map original_line (codes g) ++ cs.
Proof.
  revert g. induction cs as [|l ls IH]; intros g; simpl.
  - by rewrite app_nil_r.
  - destruct (IH (push_code (parse_code l) g)) as (-> & -> & -> & ->).
    simpl. rewrite map_app. simpl.
    by rewrite parse_code_original_line, <- app_assoc.
Qed.

Lemma push_note_all (ns : list string) (g : GeckoCode) :
  let g' := fold_left (λ g n, push_note n g) ns g in
  name g' = name g ∧ creator g' = creator g ∧ notes g' = notes g ++ ns
  ∧ codes g' = codes g.
Proof.
  revert g. induction ns as [|n ns IH]; intros g; simpl.
  - by rewrite app_nil_r.
  - destruct (IH (push_note n g)) as (-> & -> & -> & ->).
    simpl. by rewrite <- app_assoc.
Qed.


Lemma parse_header_codes (line : string) (is_user_ini : bool) :
  codes (parse_header line is_user_ini) = []
  ∧ notes (parse_header line is_user_ini) = [].
Proof.
  unfold parse_header. destruct (getline _ _ _) as [ss nm].
  by destruct (getline _ _ _) as [ss' cr].
Qed.

(** The emitted entries hold at most as many patches as the parser's state
    held plus one for each patch line read. *)
Lemma codes_bound (is_user_ini : bool) (lines : list string) (st : parser) :
  (length (concat (map codes
             (flush (fold_left (parse_line is_user_ini) lines st))))
   ≤ length (concat (map codes st.1)) + length (codes st.2)
     + length (filter (λ l, is_code_line l = true) lines))%nat.
Proof.
  assert (Hflush : ∀ st : parser,
            (length (concat (map codes (flush st)))
             ≤ length (concat (map codes st.1)) + length (codes st.2))%nat).
  { intros st0. unfold flush. destruct (nonempty (name st0.2)); [|lia].
    rewrite map_app, concat_app, length_app. simpl.
    rewrite app_nil_r. lia. }
  revert st. induction lines as [|l ls IH]; intros st.
  - simpl. specialize (Hflush st). lia.
  - cbn [fold_left]. specialize (IH (parse_line is_user_ini st l)).
    rewrite filter_cons. destruct l as [|c r]; [simpl in *; lia|].
    unfold parse_line in *. simpl is_code_line.
    destruct (Ascii.eqb c "$").
    { simpl in IH. rewrite (proj1 (parse_header_codes _ _)) in IH.
      specialize (Hflush st). simpl in *. lia. }
    destruct (Ascii.eqb c "*"); simpl in *; [lia|].
    rewrite length_app in IH. simpl in IH. lia.
Qed.

Lemma filter_all {A : Type} (P : A → Prop) `{∀ x, Decision (P x)}
    (l : list A) :
  (length l ≤ length (filter P l))%nat → Forall P l.
Proof.
  induction l as [|x l IH]; [constructor|].
  rewrite filter_cons. pose proof (length_filter P l) as Hle.
  destruct (decide (P x)); simpl; intros Hlen.
  - constructor; [done|]. apply IH. lia.
  - lia.
Qed.

Lemma until_short (d : ascii) (s x : string) :
  contains d s = true →
  (String.length (until d (s +:+ x)).1 < String.length s)%nat.
Proof.
  induction s as [|c s IH]; simpl; [discriminate|].
  destruct (Ascii.eqb c d); simpl; [lia|]. intros H.
  specialize (IH H). destruct (until d (s +:+ x)). simpl in *. lia.
Qed.

Lemma strip_front_length (s : string) :
  (String.length (strip_front s) ≤ String.length s)%nat.
Proof.
  induction s as [|c s IH]; simpl; [lia|].
  destruct (is_blank c); simpl; lia.
Qed.

Lemma strip_back_length (s : string) :
  (String.length (strip_back s) ≤ String.length s)%nat.
Proof.
  induction s as [|c s IH]; simpl; [lia|].
  destruct (is_blank c && negb (nonempty (strip_back s))); simpl; lia.
Qed.

Lemma StripSpaces_length (s : string) :
  (String.length (StripSpaces s) ≤ String.length s)%nat.
Proof.
  unfold StripSpaces. pose proof (strip_front_length s).
  pose proof (strip_back_length (strip_front s)). lia.
Qed.

Lemma strip_front_first (s : string) : first_blank (strip_front s) = false.
Proof.
  induction s as [|c s IH]; [done|]. simpl.
  destruct (is_blank c) eqn:E; [done|]. simpl. exact E.
Qed.

Lemma strip_back_first (s : string) :
  first_blank s = false → first_blank (strip_back s) = false.
Proof.
  destruct s as [|c s]; [done|]. simpl. intros E. rewrite E. simpl. exact E.
Qed.

Lemma strip_back_last (s : string) : last_blank (strip_back s) = false.
Proof.
  induction s as [|c s IH]; [done|]. cbn [strip_back].
  destruct (is_blank c) eqn:E; destruct (strip_back s) as [|d t] eqn:E';
    simpl in *; done.
Qed.

Lemma StripSpaces_is_trimmed (s : string) : trimmed (StripSpaces s) = true.
Proof.
  unfold trimmed, StripSpaces.
  by rewrite strip_back_first, strip_back_last by apply strip_front_first.
Qed.

Lemma note_lines_no_code (ns : list string) :
  filter (λ l, is_code_line l = true) (map (String "*") ns) = [].
Proof.
  induction ns as [|n ns IH]; [done|]. simpl.
  by rewrite filter_cons, decide_False.
Qed.

Lemma name_parse_header (s : string) (is_user_ini : bool) :
  name (parse_header (String "$" s) is_user_ini)
  = StripSpaces (until "[" s).1.
Proof.
  unfold parse_header, getline, seekg1, istringstream.
  cbn [rdbuf good substr1].
  destruct (until "[" s) as [nm [rest|]]; cbn [rdbuf good fst].
  - by destruct (until "]" rest) as [cr [rest'|]].
  - done.
Qed.

Lemma parse_header_fields (g : GeckoCode) (is_user_ini : bool) :
  nonempty (creator g) = true → contains "[" (name g) = false →
  name (parse_header (header g) is_user_ini) = StripSpaces (name g +:+ " ")
  ∧ creator (parse_header (header g) is_user_ini)
    = (until "]" (creator g +:+ "]")).1.
Proof.
  intros Hc Hn. unfold header, parse_header. rewrite Hc.
  unfold getline, seekg1, istringstream, dollar.
  rewrite append_cons. cbn [rdbuf good substr1 name creator new_GeckoCode].
  replace (name g +:+ " [" +:+ creator g +:+ "]")
    with ((name g +:+ " ") +:+ String "[" (creator g +:+ "]"))
    by (by rewrite append_assoc).
  rewrite until_delim by (by rewrite contains_app, Hn).
  cbn [rdbuf good].
  by destruct (until "]" (creator g +:+ "]")) as [cr [rest'|]].
Qed.

(** The lines of a local entry whose patch texts are patch lines are read
    as one header, its patches and its notes. *)
Lemma parse_entry_lines (e : GeckoCode) :
  Forall (λ c, is_code_line (original_line c) = true) (codes e) →
  parse_lines (entry_lines e) [] true
  = flush ([], fold_left (λ g n, push_note n g) (notes e)
                 (fold_left (λ g l, push_code (parse_code l) g)
                    (map original_line (codes e))
                    (parse_header (header e) true))).
Proof.
  intros Hcodes. unfold entry_lines, parse_lines.
  cbn [fold_left]. rewrite fold_left_app.
  assert (Hh : parse_line true ([], new_GeckoCode) (header e)
               = ([], parse_header (header e) true)).
  { unfold header, dollar. by destruct (nonempty (creator e)). }
  rewrite Hh, parse_note_lines.
  rewrite (parse_code_lines true (map original_line (codes e)))
    by (by apply Forall_map).
  done.
Qed.

Lemma ParseCodes_FillIni_one (ini : IniFile.t) (e : GeckoCode) :
  user_defined e = true →
  ParseCodes (FillIni ini [e]) [] true = parse_lines (entry_lines e) [] true.
Proof.
  intros Hu. unfold ParseCodes.
  rewrite (proj1 (FillIni_sections ini [e])), fill_all_spec.
  cbn [fst]. rewrite filter_cons, decide_True, filter_nil by done.
  cbn [map concat]. by rewrite app_nil_r.
Qed.

(** C3, as amended.  A local entry with a non-empty name and a non-empty
    creator is read back from the lines [FillIni] writes for it as one
    entry with the same name, creator, patch texts and notes, provided the
    text of the entry cannot be mistaken for the format's own marks: the
    name holds no opening bracket and neither starts nor ends with a
    blank, the creator holds no closing bracket, and every patch text is
    non-empty and starts with neither a dollar sign nor an asterisk. *)
Theorem FillIni_ParseCodes_round_trip (ini : IniFile.t) (e : GeckoCode) :
  user_defined e = true →
  name e ≠ EmptyString → creator e ≠ EmptyString →
  contains "[" (name e) = false → trimmed (name e) = true →
  contains "]" (creator e) = false →
  Forall (λ c, is_code_line (original_line c) = true) (codes e) →
  ∃ e', ParseCodes (FillIni ini [e]) [] true = [e'] ∧ same_text e' e.
Proof.
  intros Hu Hn%nonempty_true Hc%nonempty_true Hnb Hnt Hcb Hcodes.
  rewrite ParseCodes_FillIni_one, (parse_entry_lines e Hcodes) by done.
  rewrite (parse_header_header e true Hc Hnb Hnt Hcb).
  match goal with |- context [fold_left _ (notes e) ?g] =>
    destruct (push_note_all (notes e) g) as (N1 & N2 & N3 & N4);
    destruct (push_code_all (map original_line (codes e))
                {| codes := []; name := name e; creator := creator e;
                   notes := []; enabled := false;
                   bootstrap_enabled := false; user_defined := true |})
      as (C1 & C2 & C3 & C4)
  end.
  eexists. split.
  - unfold flush. cbn [fst snd]. rewrite N1, C1. cbn [name]. by rewrite Hn.
  - unfold same_text. rewrite N1, N2, N3, N4, C1, C2, C3, C4. done.
Qed.

(** Each condition of the round trip is needed: an entry that comes back
    with its name, creator, patch texts and notes satisfies them all. *)
Lemma round_trip_conditions_needed (ini : IniFile.t) (e : GeckoCode) :
  user_defined e = true →
  name e ≠ EmptyString → creator e ≠ EmptyString →
  (∃ e', ParseCodes (FillIni ini [e]) [] true = [e'] ∧ same_text e' e) →
  contains "[" (name e) = false ∧ trimmed (name e) = true
  ∧ contains "]" (creator e) = false
  ∧ Forall (λ c, is_code_line (original_line c) = true) (codes e).
Proof.
  intros Hu Hn%nonempty_true Hc%nonempty_true
    (e' & Hp & Hname & Hcr & Hcodes & Hnotes).
  rewrite ParseCodes_FillIni_one in Hp by done.
  assert (Hall : Forall (λ c, is_code_line (original_line c) = true)
                   (codes e)).
  { apply (proj1 (Forall_map original_line (λ l, is_code_line l = true)
                      (codes e))).
    apply (filter_all (λ l, is_code_line l = true)).
    pose proof (codes_bound true (entry_lines e) ([], new_GeckoCode)) as Hb.
    fold (parse_lines (entry_lines e) [] true) in Hb. rewrite Hp in Hb.
    unfold entry_lines in Hb. simpl in Hb. rewrite app_nil_r in Hb.
    rewrite filter_cons, decide_False, filter_app in Hb.
    2:{ unfold header, dollar. destruct (nonempty (creator e)); simpl;
          discriminate. }
    rewrite note_lines_no_code in Hb.
    rewrite app_nil_r in Hb.
    apply (f_equal (@length string)) in Hcodes.
    rewrite !length_map in Hcodes. rewrite length_map. lia. }
  rewrite (parse_entry_lines e Hall) in Hp.
  match type of Hp with context [fold_left _ (notes e) ?g] =>
    destruct (push_note_all (notes e) g) as (N1 & N2 & _ & _)
  end.
  destruct (push_code_all (map original_line (codes e))
              (parse_header (header e) true)) as (C1 & C2 & _ & _).
  unfold flush in Hp. cbn [fst snd] in Hp.
  destruct (nonempty (name _)) in Hp; [|discriminate].
  injection Hp as Hp. subst e'.
  rewrite N1, C1 in Hname. rewrite N2, C2 in Hcr.
  assert (Hnb : contains "[" (name e) = false).
  { destruct (contains "[" (name e)) eqn:E; [|done]. exfalso.
    unfold header in Hname. rewrite Hc in Hname. unfold dollar in Hname.
    rewrite append_cons, name_parse_header in Hname.
    pose proof (until_short "[" (name e) (" [" +:+ creator e +:+ "]") E).
    pose proof (StripSpaces_length
                  (until "[" (name e +:+ " [" +:+ creator e +:+ "]")).1).
    rewrite Hname in *. lia. }
  destruct (parse_header_fields e true Hc Hnb) as [F1 F2].
  rewrite F1 in Hname. rewrite F2 in Hcr.
  split; [done|]. split; [|split; [|done]].
  - rewrite <- Hname. apply StripSpaces_is_trimmed.
  - destruct (contains "]" (creator e)) eqn:E; [|done]. exfalso.
    pose proof (until_short "]" (creator e) "]" E). rewrite Hcr in *. lia.
Qed.

End RoundTrip.

(** An opening bracket in the name ends the name when the header line is
    read back (against C3 as it is stated). *)
Lemma round_trip_bracket_in_name :
  user_defined bracketed = true
  ∧ name bracketed ≠ EmptyString ∧ creator bracketed ≠ EmptyString
  ∧ ¬ ∃ e', ParseCodes (FillIni ∅ [bracketed]) [] true = [e']
            ∧ same_text e' bracketed.
Proof.
  split; [done|]. split; [done|]. split; [done|].
  intros (e' & He & Hname & _).
  vm_compute in He. injection He as <-. discriminate Hname.
Qed.

Lemma FillIni_ParseCodes_round_trip_witness :
  ∃ e', ParseCodes (FillIni ∅ [max_lives]) [] true = [e']
        ∧ same_text e' max_lives.
Proof.
  apply (FillIni_ParseCodes_round_trip ∅ max_lives); try reflexivity;
    try discriminate.
  repeat constructor.
Defined.

(** ** [ParseCodes]: how the output is put together *)

Section ParserStructure.

Variable is_user_ini : bool.

Local Abbreviation step := (parse_line is_user_ini).

Lemma flush_prefix (gcodes out : list GeckoCode) (cur : GeckoCode) :
  flush (gcodes ++ out, cur) = gcodes ++ flush (out, cur).
Proof.
  unfold flush. simpl. destruct (nonempty (name cur)); [|done].
  by rewrite app_assoc.
Qed.

Lemma fold_step_prefix (lines : list string) (gcodes out : list GeckoCode)
    (cur : GeckoCode) :
  fold_left step lines (gcodes ++ out, cur)
  = (gcodes ++ (fold_left step lines (out, cur)).1,
     (fold_left step lines (out, cur)).2).
Proof.
  revert out cur. induction lines as [|l ls IH]; intros out cur; [done|].
  cbn [fold_left]. destruct l as [|c r]; [apply IH|]. unfold parse_line.
  destruct (Ascii.eqb c "$").
  { rewrite flush_prefix. apply IH. }
  destruct (Ascii.eqb c "*"); apply IH.
Qed.

Lemma parse_lines_prefix (lines : list string) (gcodes : list GeckoCode) :
  parse_lines lines gcodes is_user_ini
  = gcodes ++ parse_lines lines [] is_user_ini.
Proof.
  unfold parse_lines.
  rewrite <- (app_nil_r gcodes) at 1. rewrite fold_step_prefix.
  by rewrite flush_prefix.
Qed.

(** A header line closes what precedes it: the lines before it and the
    lines from it on are parsed independently. *)
Lemma parse_lines_header (pre post : list string) (s : string) :
  parse_lines (pre ++ dollar s :: post) [] is_user_ini
  = parse_lines pre [] is_user_ini
    ++ parse_lines (dollar s :: post) [] is_user_ini.
Proof.
  unfold parse_lines. rewrite fold_left_app. cbn [fold_left].
  destruct (fold_left step pre ([], new_GeckoCode)) as [out cur].
  unfold parse_line, dollar. rewrite Ascii.eqb_refl.
  change (flush ([], new_GeckoCode)) with (@nil GeckoCode).
  rewrite <- (app_nil_r (flush (out, cur))) at 1.
  rewrite fold_step_prefix. by rewrite flush_prefix.
Qed.

Lemma parse_lines_nil (gcodes : list GeckoCode) :
  parse_lines [] gcodes is_user_ini = gcodes.
Proof. reflexivity. Qed.

Lemma fold_step_nonempty (lines : list string) (st : parser) :
  fold_left step (filter (λ l, nonempty l = true) lines) st
  = fold_left step lines st.
Proof.
  revert st. induction lines as [|l ls IH]; intros st; [done|].
  rewrite filter_cons. destruct l as [|c r].
  - rewrite decide_False by done. apply IH.
  - rewrite decide_True by done. cbn [fold_left]. apply IH.
Qed.

(** The names of the emitted entries, in terms of the state. *)
Lemma names_of_fold (lines : list string) (st : parser) :
  map name (flush (fold_left step lines st))
  = map name st.1
    ++ filter (λ n, nonempty n = true)
         (name st.2
          :: map header_name (filter (λ l, not_marker l = false) lines)).
Proof.
  revert st. induction lines as [|l ls IH]; intros [out cur].
  - simpl. unfold flush. simpl. rewrite filter_cons, filter_nil.
    destruct (nonempty (name cur)).
    + rewrite decide_True by done. by rewrite map_app.
    + rewrite decide_False by done. by rewrite ?app_nil_r.
  - cbn [fold_left]. rewrite IH. rewrite (filter_cons _ l).
    destruct l as [|c r]; [by rewrite decide_False|].
    unfold parse_line. simpl not_marker.
    destruct (Ascii.eqb c "$") eqn:Ec.
    + rewrite decide_True by done. cbn [fst snd map].
      rewrite !(filter_cons _ (name cur)).
      replace (name (parse_header (String c r) is_user_ini))
        with (header_name (String c r)).
      2:{ unfold header_name, parse_header, getline, seekg1, istringstream.
          cbn [rdbuf good substr1].
          destruct (until "[" r) as [nm [rest|]]; cbn [rdbuf good fst];
            [by destruct (until "]" rest) as [cr [rest'|]] | done]. }
      unfold flush. cbn [fst snd].
      destruct (nonempty (name cur)).
      * rewrite decide_True by done. rewrite map_app. simpl.
        by rewrite <- app_assoc.
      * rewrite decide_False by done. done.
    + rewrite decide_False by done.
      by destruct (Ascii.eqb c "*").
Qed.

End ParserStructure.

Section ParserOutput.

Variable is_user_ini : bool.

Local Abbreviation step := (parse_line is_user_ini).

(** X1.  [ParseCodes] does not clear the vector it fills: the entries the
    vector holds stay in front, and what is appended does not depend on
    them. *)
Theorem ParseCodes_keeps_vector (ini : IniFile.t) (gcodes : list GeckoCode) :
  ParseCodes ini gcodes is_user_ini
  = gcodes ++ ParseCodes ini [] is_user_ini.
Proof. apply parse_lines_prefix. Qed.

(** X2.  Empty lines play no part: the section with its empty lines
    removed is parsed to the same entries, so an empty line neither ends
    an entry nor starts one. *)
Theorem ParseCodes_empty_lines (ini : IniFile.t) (lines : list string)
    (gcodes : list GeckoCode) :
  ParseCodes (SetLines ini "Gecko" (filter (λ l, nonempty l = true) lines))
             gcodes is_user_ini
  = ParseCodes (SetLines ini "Gecko" lines) gcodes is_user_ini.
Proof.
  rewrite !ParseCodes_SetLines. unfold parse_lines.
  by rewrite fold_step_nonempty.
Qed.

(** X3.  A header line separates: the entries of a section are those of
    the lines before the header line followed by those of the lines from
    the header line on, each part parsed on its own. *)
Theorem ParseCodes_splits_at_header (ini : IniFile.t) (pre post : list string)
    (s : string) :
  ParseCodes (SetLines ini "Gecko" (pre ++ dollar s :: post)) []
             is_user_ini
  = ParseCodes (SetLines ini "Gecko" pre) [] is_user_ini
    ++ ParseCodes (SetLines ini "Gecko" (dollar s :: post)) [] is_user_ini.
Proof. rewrite !ParseCodes_SetLines. apply parse_lines_header. Qed.

(** X4.  The names of the parsed entries are the names of the header
    lines of the section, in order and with repetitions, those header
    lines left out whose name is empty. *)
Theorem ParseCodes_names (ini : IniFile.t) :
  map name (ParseCodes ini [] is_user_ini)
  = filter (λ n, nonempty n = true)
      (map header_name
         (filter (λ l, not_marker l = false) (GetLines ini "Gecko"))).
Proof.
  unfold ParseCodes, parse_lines. rewrite names_of_fold. simpl.
  by rewrite filter_cons, decide_False.
Qed.

(** What the lines between two header lines do to the entry in progress:
    the patch lines are scanned and appended to its patches, the note
    lines lose their asterisk and are appended to its notes, both in the
    order of the lines. *)
Lemma fold_step_body (body : list string) (out : list GeckoCode)
    (g : GeckoCode) :
  Forall (λ l, ∀ nm, l ≠ dollar nm) body →
  fold_left step body (out, g)
  = (out,
     {| codes := codes g
                 ++ map parse_code (filter (λ l, is_code_line l = true) body);
        name := name g; creator := creator g;
        notes := notes g
                 ++ map substr1 (filter (λ l, is_note_line l = true) body);
        enabled := enabled g; bootstrap_enabled := bootstrap_enabled g;
        user_defined := user_defined g |}).
Proof.
  intros Hbody. revert g.
  induction Hbody as [|l ls Hl _ IH]; intros g.
  - simpl. rewrite !app_nil_r. by destruct g.
  - cbn [fold_left]. rewrite !(filter_cons _ l).
    apply not_marker_true in Hl. destruct l as [|c r].
    + rewrite !decide_False by done. apply IH.
    + simpl in Hl. apply negb_true_iff in Hl. unfold parse_line.
      simpl is_code_line. simpl is_note_line. rewrite Hl.
      destruct (Ascii.eqb c "*"); simpl negb; simpl andb.
      * rewrite decide_False, decide_True by done. rewrite IH. simpl.
        by rewrite <- app_assoc.
      * rewrite decide_True, decide_False by done. rewrite IH. simpl.
        by rewrite <- app_assoc.
Qed.

Lemma parse_header_eta (line : string) :
  ∃ cr, parse_header line is_user_ini
        = {| codes := []; name := header_name line; creator := cr;
             notes := []; enabled := false; bootstrap_enabled := false;
             user_defined := is_user_ini |}.
Proof.
  unfold header_name, parse_header, getline, seekg1, istringstream.
  cbn [rdbuf good].
  destruct (until "[" (substr1 line)) as [nm [rest|]]; cbn [rdbuf good fst].
  - destruct (until "]" rest) as [cr [rest'|]]; by eexists.
  - by eexists.
Qed.

(** X5.  A header line followed by lines none of which is a header line
    makes one entry, or none when the header gives no name.  The entry has
    the name and the creator of the header line, the patch lines among
    the lines as its patches and the note lines without their asterisk as
    its notes, each in the order of the lines, both activation flags unset
    and the flag of the source. *)
Theorem ParseCodes_one_entry (ini : IniFile.t) (s : string)
    (body : list string) :
  Forall (λ l, ∀ nm, l ≠ dollar nm) body →
  ParseCodes (SetLines ini "Gecko" (dollar s :: body)) [] is_user_ini
  = if nonempty (header_name (dollar s))
    then [ {| codes := map parse_code
                         (filter (λ l, is_code_line l = true) body);
              name := header_name (dollar s);
              creator := creator (parse_header (dollar s) is_user_ini);
              notes := map substr1
                         (filter (λ l, is_note_line l = true) body);
              enabled := false; bootstrap_enabled := false;
              user_defined := is_user_ini |} ]
    else [].
Proof.
  intros Hbody. rewrite ParseCodes_SetLines. unfold parse_lines.
  cbn [fold_left]. unfold parse_line at 2. unfold dollar at 1.
  rewrite Ascii.eqb_refl.
  change (flush ([], new_GeckoCode)) with (@nil GeckoCode).
  rewrite (fold_step_body body [] _ Hbody). unfold flush, dollar.
  destruct (parse_header_eta (String "$" s)) as [cr ->].
  cbn [fst snd name codes notes creator enabled bootstrap_enabled
       user_defined app].
  by destruct (nonempty (header_name (String "$" s))).
Qed.

Lemma until_none (d : ascii) (s : string) :
  contains d s = false → until d s = (s, None).
Proof.
  induction s as [|c s IH]; simpl; [done|].
  intros [H1 H2]%orb_false_iff. by rewrite H1, (IH H2).
Qed.

(** X6.  The three shapes of a header line.  Without an opening bracket
    the whole text after the dollar sign, stripped, is the name and the
    creator is empty; with an opening bracket that is never closed the
    creator is the rest of the line; and what follows the closing bracket
    is ignored. *)
Theorem parse_header_shapes (n c junk : string) :
  contains "[" n = false → contains "]" c = false →
  (name (parse_header (dollar n) is_user_ini) = StripSpaces n
   ∧ creator (parse_header (dollar n) is_user_ini) = EmptyString)
  ∧ (name (parse_header (dollar (n +:+ String "[" c)) is_user_ini)
     = StripSpaces n
     ∧ creator (parse_header (dollar (n +:+ String "[" c)) is_user_ini) = c)
  ∧ (name (parse_header (dollar (n +:+ String "[" (c +:+ String "]" junk)))
             is_user_ini)
     = StripSpaces n
     ∧ creator (parse_header
                  (dollar (n +:+ String "[" (c +:+ String "]" junk)))
                  is_user_ini) = c).
Proof.
  intros Hn Hc. unfold parse_header, getline, seekg1, istringstream, dollar.
  cbn [rdbuf good substr1 name creator new_GeckoCode].
  rewrite (until_none _ _ Hn), !(until_delim _ _ _ Hn).
  cbn [rdbuf good name creator].
  rewrite (until_none _ _ Hc), (until_delim _ _ _ Hc). done.
Qed.

End ParserOutput.

(** ** What is saved can be loaded, and what is loaded can be saved *)

Section SavedForm.

Lemma contains_until (d : ascii) (s : string) :
  contains d (until d s).1 = false.
Proof.
  induction s as [|c s IH]; [done|]. simpl.
  destruct (Ascii.eqb c d) eqn:E; [done|].
  destruct (until d s) as [a b]. simpl in *. by rewrite E, IH.
Qed.

Lemma contains_strip_front (d : ascii) (s : string) :
  contains d s = false → contains d (strip_front s) = false.
Proof.
  induction s as [|c s IH]; [done|]. simpl.
  intros [H1 H2]%orb_false_iff.
  destruct (is_blank c); [by apply IH|]. simpl. by rewrite H1, H2.
Qed.

Lemma contains_strip_back (d : ascii) (s : string) :
  contains d s = false → contains d (strip_back s) = false.
Proof.
  induction s as [|c s IH]; [done|]. cbn [strip_back contains].
  intros [H1 H2]%orb_false_iff.
  destruct (is_blank c && negb (nonempty (strip_back s))); [done|].
  simpl. by rewrite H1, (IH H2).
Qed.

Lemma contains_StripSpaces (d : ascii) (s : string) :
  contains d s = false → contains d (StripSpaces s) = false.
Proof.
  intros H. by apply contains_strip_back, contains_strip_front.
Qed.

Lemma strip_back_id (s : string) : last_blank s = false → strip_back s = s.
Proof.
  induction s as [|c s IH]; [done|]. intros H. cbn [strip_back].
  destruct s as [|d s].
  - simpl in *. by rewrite H.
  - rewrite (IH H). simpl. by rewrite andb_false_r.
Qed.

Lemma StripSpaces_id (s : string) : trimmed s = true → StripSpaces s = s.
Proof.
  unfold trimmed, StripSpaces.
  intros [H1%negb_true_iff H2%negb_true_iff]%andb_true_iff.
  destruct s as [|c s]; [done|]. simpl in H1. cbn [strip_front].
  rewrite H1. by apply strip_back_id.
Qed.

(** A header line that yields a name yields an entry in saved form. *)
Lemma parse_header_saved_form (line : string) :
  nonempty (name (parse_header line true)) = true →
  saved_form (parse_header line true).
Proof.
  unfold parse_header, getline, seekg1, istringstream. cbn [rdbuf good].
  destruct (until "[" (substr1 line)) as [nm rest] eqn:E.
  pose proof (contains_until "[" (substr1 line)) as Hnm.
  rewrite E in Hnm. simpl in Hnm.
  assert (Hcr : ∀ r, contains "]" (until "]" r).1 = false)
    by (intros r; apply contains_until).
  destruct rest as [rest|]; cbn [rdbuf good].
  - specialize (Hcr rest). destruct (until "]" rest) as [cr [rest'|]];
      simpl in *; intros Hne; repeat split; try done;
      (by apply contains_StripSpaces) || apply StripSpaces_is_trimmed.
  - simpl. intros Hne. repeat split; try done;
      (by apply contains_StripSpaces) || apply StripSpaces_is_trimmed.
Qed.

Lemma parse_line_saved_form (st : parser) (line : string) :
  parser_inv saved_form st → parser_inv saved_form (parse_line true st line).
Proof.
  intros [H1 H2]. destruct line as [|c r]; [done|]. unfold parse_line.
  destruct (Ascii.eqb c "$") eqn:Ed.
  { split; [|apply parse_header_saved_form]. unfold flush. simpl.
    destruct (nonempty (name st.2)) eqn:E; [|done].
    apply Forall_app. split; [done|]. apply Forall_singleton. by apply H2. }
  destruct (Ascii.eqb c "*") eqn:Ea; (split; [done|]); simpl; intros Hn;
    destruct (H2 Hn) as (S1 & S2 & S3 & S4 & S5 & S6 & S7 & S8);
    repeat split; try done.
  apply Forall_app. split; [done|]. apply Forall_singleton.
  rewrite parse_code_original_line. split; [|done]. simpl. by rewrite Ed, Ea.
Qed.

Lemma parse_lines_saved_form (lines : list string) :
  Forall saved_form (parse_lines lines [] true).
Proof.
  unfold parse_lines.
  assert (H : ∀ st, parser_inv saved_form st →
                parser_inv saved_form (fold_left (parse_line true) lines st)).
  { induction lines as [|l ls IH]; intros st Hst; [done|].
    simpl. by apply IH, parse_line_saved_form. }
  destruct (H ([], new_GeckoCode)) as [H1 H2].
  { split; [constructor|]. simpl. discriminate. }
  unfold flush. destruct (nonempty (name _)) eqn:E; [|done].
  apply Forall_app. split; [done|]. apply Forall_singleton. by apply H2.
Qed.

Lemma push_code_fold (cs : list string) (g : GeckoCode) :
  fold_left (λ g l, push_code (parse_code l) g) cs g
  = {| codes := codes g ++ map parse_code cs; name := name g;
       creator := creator g; notes := notes g; enabled := enabled g;
       bootstrap_enabled := bootstrap_enabled g;
       user_defined := user_defined g |}.
Proof.
  revert g. induction cs as [|l ls IH]; intros g; simpl.
  - rewrite app_nil_r. by destruct g.
  - rewrite IH. simpl. by rewrite <- app_assoc.
Qed.

Lemma push_note_fold (ns : list string) (g : GeckoCode) :
  fold_left (λ g n, push_note n g) ns g
  = {| codes := codes g; name := name g; creator := creator g;
       notes := notes g ++ ns; enabled := enabled g;
       bootstrap_enabled := bootstrap_enabled g;
       user_defined := user_defined g |}.
Proof.
  revert g. induction ns as [|n ns IH]; intros g; simpl.
  - rewrite app_nil_r. by destruct g.
  - rewrite IH. simpl. by rewrite <- app_assoc.
Qed.

(** The header line of an entry in saved form is read back as written,
    with or without a creator. *)
Lemma parse_header_saved (g : GeckoCode) :
  saved_form g →
  parse_header (header g) true
  = {| codes := []; name := name g; creator := creator g; notes := [];
       enabled := false; bootstrap_enabled := false; user_defined := true |}.
Proof.
  intros (S1 & S2 & S3 & S4 & S5 & S6 & S7 & S8).
  destruct (nonempty (creator g)) eqn:Ec.
  - by apply parse_header_header.
  - apply nonempty_false in Ec. unfold header. rewrite Ec. simpl nonempty.
    cbv iota. unfold parse_header, getline, seekg1, istringstream, dollar.
    cbn [rdbuf good substr1]. rewrite (until_none _ _ S5).
    cbn [rdbuf good creator new_GeckoCode]. by rewrite StripSpaces_id.
Qed.

Lemma parse_entry_saved (g : GeckoCode) :
  saved_form g → parse_lines (entry_lines g) [] true = [g].
Proof.
  intros Hg. pose proof Hg as (S1 & S2 & S3 & S4 & S5 & S6 & S7 & S8).
  rewrite parse_entry_lines
    by (eapply Forall_impl; [exact S8 | by intros c [H _]]).
  rewrite (parse_header_saved g Hg), push_code_fold, push_note_fold.
  unfold flush. cbn [fst snd name codes notes creator enabled
                     bootstrap_enabled user_defined app].
  rewrite S4, map_map.
  replace (map (λ c, parse_code (original_line c)) (codes g))
    with (codes g).
  2:{ clear -S8. induction S8 as [|c cs [_ Hc] _ IH]; [done|].
      simpl. by rewrite <- Hc, <- IH. }
  destruct g. simpl in *. by subst.
Qed.

Lemma header_is_dollar (g : GeckoCode) : ∃ s, header g = dollar s.
Proof.
  unfold header. destruct (nonempty (creator g)); [|by eexists].
  unfold dollar. rewrite append_cons. by eexists.
Qed.

Lemma parse_saved_entries (gs : list GeckoCode) :
  Forall saved_form gs →
  parse_lines (concat (map entry_lines gs)) [] true = gs.
Proof.
  induction 1 as [|g gs Hg Hgs IH]; [done|]. cbn [map concat].
  destruct gs as [|g' gs'].
  - simpl. rewrite app_nil_r. by apply parse_entry_saved.
  - cbn [map concat] in *. destruct (header_is_dollar g') as [s Hs].
    assert (E : entry_lines g' ++ concat (map entry_lines gs')
                = dollar s
                  :: (map original_line (codes g')
                      ++ map (String "*") (notes g'))
                     ++ concat (map entry_lines gs')).
    { unfold entry_lines. by rewrite Hs. }
    rewrite E in IH |- *.
    rewrite parse_lines_header, IH. by rewrite parse_entry_saved.
Qed.

Lemma filter_user_defined (gs : list GeckoCode) :
  Forall (λ g, user_defined g = true) gs →
  filter (λ g, user_defined g = true) gs = gs.
Proof.
  induction 1 as [|g gs Hg _ IH]; [done|].
  by rewrite filter_cons, decide_True, IH.
Qed.

(** X7.  Whatever the lines of a local file are, each entry parsed from
    them is in saved form: it is marked local, has its activation flags
    unset and a non-empty, stripped name without an opening bracket, its
    creator has no closing bracket, and each of its patches has the text
    of a patch line and the numbers scanned from that text. *)
Theorem ParseCodes_saved_form (ini : IniFile.t) :
  Forall saved_form (ParseCodes ini [] true).
Proof. apply parse_lines_saved_form. Qed.

(** X8.  Saving and loading: when the local entries of a list are in
    saved form, parsing the file that [FillIni] writes for the list gives
    back exactly its local entries, in order; the global entries of the
    list are not written and so are not read. *)
Theorem FillIni_ParseCodes_saved (ini : IniFile.t) (gs : list GeckoCode) :
  Forall saved_form (filter (λ g, user_defined g = true) gs) →
  ParseCodes (FillIni ini gs) [] true
  = filter (λ g, user_defined g = true) gs.
Proof.
  intros Hgs. unfold ParseCodes.
  rewrite (proj1 (FillIni_sections ini gs)), fill_all_spec. cbn [fst].
  by apply parse_saved_entries.
Qed.

(** X9.  Loading, saving and loading again changes nothing: the entries
    parsed from any local file are parsed again, unchanged, from the file
    that [FillIni] writes for them. *)
Theorem ParseCodes_FillIni_ParseCodes (src ini : IniFile.t) :
  ParseCodes (FillIni ini (ParseCodes src [] true)) [] true
  = ParseCodes src [] true.
Proof.
  unfold ParseCodes at 1.
  rewrite (proj1 (FillIni_sections ini _)), fill_all_spec. cbn [fst].
  rewrite filter_user_defined by apply (parse_lines_user_defined true).
  apply parse_saved_entries, parse_lines_saved_form.
Qed.

End SavedForm.

(** ** Activation: repeated marking, saving and seeding *)

Section Activation.

Lemma set_enabled_name (b : bool) (g : GeckoCode) :
  name (set_enabled b g) = name g.
Proof. reflexivity. Qed.

Lemma set_bootstrap_enabled_name (b : bool) (g : GeckoCode) :
  name (set_bootstrap_enabled b g) = name g.
Proof. reflexivity. Qed.

Lemma set_enabled_same (g : GeckoCode) : set_enabled (enabled g) g = g.
Proof. by destruct g. Qed.

Lemma MarkEnabledCodes_map (ini : IniFile.t) (gs : list GeckoCode) :
  MarkEnabledCodes ini gs
  = map (λ g, if bool_decide (marked (GetLines ini "Gecko_Enabled") (name g))
              then set_enabled true g else g) gs.
Proof. by apply mark_lines_spec. Qed.

Lemma MarkBootstrapCodes_map (ini : IniFile.t) (gs : list GeckoCode) :
  MarkBootstrapCodes ini gs
  = map (λ g, if bool_decide (marked (GetLines ini "Gecko_Enabled") (name g))
              then set_bootstrap_enabled true g else g) gs.
Proof. by apply mark_lines_spec. Qed.

(** X10.  Marking twice from the same file is marking once, and marking
    the enabled codes from one file and the bootstrap codes from another
    can be done in either order. *)
Theorem Mark_twice_and_order (a b : IniFile.t) (gs : list GeckoCode) :
  MarkEnabledCodes a (MarkEnabledCodes a gs) = MarkEnabledCodes a gs
  ∧ MarkBootstrapCodes b (MarkBootstrapCodes b gs) = MarkBootstrapCodes b gs
  ∧ MarkEnabledCodes a (MarkBootstrapCodes b gs)
    = MarkBootstrapCodes b (MarkEnabledCodes a gs).
Proof.
  rewrite !MarkEnabledCodes_map, !MarkBootstrapCodes_map, !map_map.
  repeat split; apply map_ext; intros g;
    destruct (bool_decide (marked (GetLines a "Gecko_Enabled") (name g)))
      eqn:Ea;
    destruct (bool_decide (marked (GetLines b "Gecko_Enabled") (name g)))
      eqn:Eb;
    rewrite ?set_enabled_name, ?set_bootstrap_enabled_name, ?Ea, ?Eb;
    reflexivity.
Qed.

(** X11.  [MarkEnabledCodes] changes nothing but [enabled] flags and
    [MarkBootstrapCodes] nothing but [bootstrap_enabled] flags: with the
    flag in question reset, the entries after the call are the entries
    before it, as many and in the same order. *)
Theorem Mark_touches_one_flag (ini : IniFile.t) (gs : list GeckoCode)
    (b : bool) :
  map (set_enabled b) (MarkEnabledCodes ini gs) = map (set_enabled b) gs
  ∧ map (set_bootstrap_enabled b) (MarkBootstrapCodes ini gs)
    = map (set_bootstrap_enabled b) gs.
Proof.
  rewrite MarkEnabledCodes_map, MarkBootstrapCodes_map, !map_map.
  split; apply map_ext; intros g;
    by destruct (bool_decide (marked (GetLines ini "Gecko_Enabled") (name g))).
Qed.

(** The marker lines written for the entries on which a flag is set name
    exactly the names of those entries. *)
Lemma marked_flagged (p : GeckoCode → bool) (gs : list GeckoCode)
    (nm : string) :
  marked (map (λ g, dollar (name g)) (filter (λ g, p g = true) gs)) nm
  ↔ ∃ h, h ∈ gs ∧ p h = true ∧ name h = nm.
Proof.
  unfold marked. rewrite list_elem_of_fmap. split.
  - intros (h & Hh & [Hp Hin]%list_elem_of_filter). exists h.
    injection Hh as Hh. done.
  - intros (h & Hin & Hp & <-). exists h. split; [done|].
    by apply list_elem_of_filter.
Qed.

Lemma marked_flagged_same (p : GeckoCode → bool) (gs : list GeckoCode)
    (g : GeckoCode) :
  Forall (λ h, name g = name h → p g = p h) gs → g ∈ gs →
  bool_decide
    (marked (map (λ g, dollar (name g)) (filter (λ g, p g = true) gs))
            (name g))
  = p g.
Proof.
  intros Hsame Hin. rewrite Forall_forall in Hsame.
  destruct (p g) eqn:Hp.
  - apply bool_decide_eq_true, marked_flagged. by exists g.
  - apply bool_decide_eq_false. intros (h & Hh & Hph & Hn)%marked_flagged.
    pose proof (Hsame h Hh (eq_sym Hn)) as Hs. congruence.
Qed.

Lemma map_ext_elem {A B : Type} (f g : A → B) (l : list A) :
  Forall (λ x, f x = g x) l → map f l = map g l.
Proof. induction 1 as [|x l Hx _ IH]; simpl; [done|]. by rewrite Hx, IH. Qed.

(** X12.  Saving and loading the activation: when the entries that share
    a name agree on their [enabled] flag (as they do when the names are
    pairwise distinct), marking the entries, all reset to disabled, from
    the file that [FillIni] wrote for them gives every entry its flag
    back. *)
Theorem FillIni_MarkEnabledCodes (ini : IniFile.t) (gs : list GeckoCode) :
  Forall (λ g, Forall (λ h, name g = name h → enabled g = enabled h) gs) gs →
  MarkEnabledCodes (FillIni ini gs) (map (set_enabled false) gs) = gs.
Proof.
  intros Hsame. rewrite MarkEnabledCodes_map.
  rewrite (proj2 (FillIni_sections ini gs)), fill_all_spec. cbn [snd].
  rewrite map_map. etransitivity; [|apply map_id]. apply map_ext_elem.
  apply Forall_forall. intros g Hin. rewrite set_enabled_name.
  rewrite Forall_forall in Hsame.
  rewrite (marked_flagged_same enabled gs g (Hsame g Hin) Hin).
  destruct g as [? ? ? ? [] ? ?]; reflexivity.
Qed.

(** X13.  Seeding: when the entries that share a name agree on their
    [bootstrap_enabled] flag, marking them from the file that
    [BootstrapLocalConfig] wrote for them enables exactly those that are
    default-enabled, besides those enabled already. *)
Theorem BootstrapLocalConfig_MarkEnabledCodes (local_ini : IniFile.t)
    (gs : list GeckoCode) :
  Forall (λ g, Forall (λ h, name g = name h →
                            bootstrap_enabled g = bootstrap_enabled h) gs)
         gs →
  MarkEnabledCodes (BootstrapLocalConfig local_ini gs) gs
  = map (λ g, set_enabled (enabled g || bootstrap_enabled g) g) gs.
Proof.
  intros Hsame. rewrite MarkEnabledCodes_map. unfold BootstrapLocalConfig.
  rewrite (push_back_if bootstrap_enabled (λ g, dollar (name g))).
  rewrite GetLines_SetLines. cbn [app]. apply map_ext_elem.
  apply Forall_forall. intros g Hin. rewrite Forall_forall in Hsame.
  rewrite (marked_flagged_same bootstrap_enabled gs g (Hsame g Hin) Hin).
  destruct g as [? ? ? ? [] [] ?]; reflexivity.
Qed.

(** X14.  From global file to local file: when no entry is default-enabled
    beforehand, marking the bootstrap codes from the global file and then
    bootstrapping the local file writes one marker line for each entry
    whose name the global file marks, in the order of the entries, and so
    writes no line that is not a marker line of the global file. *)
Theorem MarkBootstrapCodes_BootstrapLocalConfig (globalIni local_ini : IniFile.t)
    (gs : list GeckoCode) :
  Forall (λ g, bootstrap_enabled g = false) gs →
  GetLines (BootstrapLocalConfig local_ini (MarkBootstrapCodes globalIni gs))
           "Gecko_Enabled"
  = map (λ g, dollar (name g))
        (filter (λ g, marked (GetLines globalIni "Gecko_Enabled") (name g)) gs)
  ∧ Forall (λ l, l ∈ GetLines globalIni "Gecko_Enabled")
      (GetLines
         (BootstrapLocalConfig local_ini (MarkBootstrapCodes globalIni gs))
         "Gecko_Enabled").
Proof.
  intros Hfresh.
  assert (E : GetLines
                (BootstrapLocalConfig local_ini
                   (MarkBootstrapCodes globalIni gs)) "Gecko_Enabled"
              = map (λ g, dollar (name g))
                  (filter (λ g, marked (GetLines globalIni "Gecko_Enabled")
                                       (name g)) gs)).
  { unfold BootstrapLocalConfig.
    rewrite (push_back_if bootstrap_enabled (λ g, dollar (name g))).
    rewrite GetLines_SetLines, MarkBootstrapCodes_map. cbn [app].
    induction Hfresh as [|g gs' Hg _ IH]; [done|]. cbn [map].
    rewrite !filter_cons.
    destruct (decide (marked (GetLines globalIni "Gecko_Enabled") (name g)))
      as [Hm|Hm].
    - rewrite (bool_decide_eq_true_2 _ Hm). rewrite decide_True by done.
      cbn [map]. by rewrite IH.
    - rewrite (bool_decide_eq_false_2 _ Hm).
      rewrite decide_False by congruence. exact IH. }
  split; [exact E|]. rewrite E. apply Forall_forall.
  intros l (g & -> & [Hm _]%list_elem_of_filter)%list_elem_of_fmap.
  exact Hm.
Qed.

End Activation.

(** ** The merged set: flags, members and a second merge *)

Section MergedMore.

Variables globalIni localIni : IniFile.t.

Local Abbreviation globals := (ParseCodes globalIni [] false).
Local Abbreviation locals := (ParseCodes localIni [] true).

(** Every parse starts its entries with both activation flags unset. *)
Lemma parse_lines_flags (b : bool) (lines : list string) :
  Forall (λ g, enabled g = false ∧ bootstrap_enabled g = false)
         (parse_lines lines [] b).
Proof.
  apply parse_lines_Forall; [| | |constructor].
  - intros line _. by destruct (parse_header_eta b line) as [cr ->].
  - done.
  - done.
Qed.

Lemma keep_new_included (inc : list string) (ls : list GeckoCode) :
  Forall (λ l, name l ∈ inc) ls → keep_new inc ls = [].
Proof.
  induction 1 as [|l ls Hl _ IH]; [done|]. simpl.
  by rewrite (bool_decide_eq_true_2 _ Hl).
Qed.

Lemma merged_flags :
  Forall (λ g, enabled g = false ∧ bootstrap_enabled g = false)
         (MergeCodes globalIni localIni []).
Proof.
  rewrite MergeCodes_unfold. simpl. apply Forall_app. split.
  - apply parse_lines_flags.
  - apply Forall_forall. intros e [He _]%keep_new_subset.
    pose proof (parse_lines_flags true (GetLines localIni "Gecko")) as H.
    rewrite Forall_forall in H. by apply H.
Qed.

(** X15.  [MergeCodes] reads no activation: every entry of the set merged
    from an empty working set has both activation flags unset. *)
Theorem MergeCodes_flags_unset :
  Forall (λ g, enabled g = false ∧ bootstrap_enabled g = false)
         (MergeCodes globalIni localIni []).
Proof. exact merged_flags. Qed.

(** X16.  Merging and then marking: on the set merged from an empty
    working set, [MarkEnabledCodes] leaves an entry enabled exactly when
    its name is the remainder of a marker line of the file, and
    [MarkBootstrapCodes] does the same for the other flag. *)
Theorem MergeCodes_then_Mark (ini : IniFile.t) :
  map enabled (MarkEnabledCodes ini (MergeCodes globalIni localIni []))
  = map (λ g, bool_decide (marked (GetLines ini "Gecko_Enabled") (name g)))
        (MergeCodes globalIni localIni [])
  ∧ map bootstrap_enabled
        (MarkBootstrapCodes ini (MergeCodes globalIni localIni []))
    = map (λ g, bool_decide (marked (GetLines ini "Gecko_Enabled") (name g)))
          (MergeCodes globalIni localIni []).
Proof.
  rewrite MarkEnabledCodes_map, MarkBootstrapCodes_map, !map_map.
  split; apply map_ext_elem; (eapply Forall_impl; [apply merged_flags|]);
    intros g [He Hb]; simpl;
    by destruct (bool_decide (marked (GetLines ini "Gecko_Enabled") (name g))).
Qed.

(** X17.  The entries of the merged set are entries of the two sources,
    and its names are the names of the two sources together: a local name
    that collides is still represented, by the entry that won. *)
Theorem MergeCodes_members :
  Forall (λ e, e ∈ globals ∨ e ∈ locals) (MergeCodes globalIni localIni [])
  ∧ ∀ n, n ∈ map name (MergeCodes globalIni localIni [])
         ↔ n ∈ map name globals ∨ n ∈ map name locals.
Proof.
  rewrite MergeCodes_unfold. simpl. split.
  - apply Forall_app. split; apply Forall_forall.
    + intros e He. by left.
    + intros e [He _]%keep_new_subset. by right.
  - intros n. rewrite map_app, elem_of_app. split.
    + intros [H|(e & -> & [He _]%keep_new_subset)%list_elem_of_fmap];
        [by left|].
      right. apply list_elem_of_fmap. by exists e.
    + intros [H|(e & -> & He)%list_elem_of_fmap]; [by left|].
      by apply elem_of_app, keep_new_covers.
Qed.

(** X18.  Merging a second time into the set already merged adds no local
    entry but appends every global entry once more: the working set has
    to be empty for the merged names to stay apart. *)
Theorem MergeCodes_twice :
  MergeCodes globalIni localIni (MergeCodes globalIni localIni [])
  = MergeCodes globalIni localIni [] ++ globals.
Proof.
  rewrite (MergeCodes_unfold _ _ (MergeCodes globalIni localIni [])).
  rewrite keep_new_included; [by rewrite app_nil_r|].
  apply Forall_forall. intros l Hl. rewrite map_app, elem_of_app. left.
  rewrite MergeCodes_unfold. simpl. rewrite map_app.
  by apply keep_new_covers.
Qed.

End MergedMore.

(** ** [FillIni] as an operation on files *)

Section FillIniFile.

(** X19.  [FillIni] replaces the two sections whatever they held and
    leaves every other section alone: saving a second list over a first
    gives the file that saving the second list alone gives. *)
Theorem FillIni_overwrites (ini : IniFile.t) (gs1 gs2 : list GeckoCode) :
  FillIni (FillIni ini gs1) gs2 = FillIni ini gs2
  ∧ ∀ section, section ≠ "Gecko" → section ≠ "Gecko_Enabled" →
      FillIni ini gs1 !! section = ini !! section.
Proof.
  unfold FillIni. destruct (fill_all gs1) as [l1 e1].
  destruct (fill_all gs2) as [l2 e2]. unfold SetLines. split.
  - apply map_eq. intros k.
    destruct (decide (k = "Gecko_Enabled")) as [->|H1].
    { by rewrite !lookup_insert_eq. }
    rewrite !(lookup_insert_ne _ "Gecko_Enabled") by done.
    destruct (decide (k = "Gecko")) as [->|H2].
    { by rewrite !lookup_insert_eq. }
    by rewrite !lookup_insert_ne by done.
  - intros section H1 H2. by rewrite !lookup_insert_ne.
Qed.

(** X20.  The lines written for a list that is two lists one after the
    other are the lines written for the first followed by the lines
    written for the second, in both sections. *)
Theorem FillIni_app (ini : IniFile.t) (gs1 gs2 : list GeckoCode) :
  GetLines (FillIni ini (gs1 ++ gs2)) "Gecko"
  = GetLines (FillIni ini gs1) "Gecko" ++ GetLines (FillIni ini gs2) "Gecko"
  ∧ GetLines (FillIni ini (gs1 ++ gs2)) "Gecko_Enabled"
    = GetLines (FillIni ini gs1) "Gecko_Enabled"
      ++ GetLines (FillIni ini gs2) "Gecko_Enabled".
Proof.
  destruct (FillIni_sections ini (gs1 ++ gs2)) as [-> ->].
  destruct (FillIni_sections ini gs1) as [-> ->].
  destruct (FillIni_sections ini gs2) as [-> ->].
  rewrite !fill_all_spec. cbn [fst snd].
  by rewrite !filter_app, !map_app, concat_app.
Qed.

End FillIniFile.

(** ** The numbers of a patch line *)

Section PatchNumbers.

Lemma extract_hex_bound (ss : istream) (v : N) :
  v ≤ u32_max → (extract_hex ss v).2 ≤ u32_max.
Proof.
  intros Hv. unfold extract_hex. destruct (good ss); [|done].
  destruct (skipws (rdbuf ss)) as [|c r]; [done|].
  destruct (hex_field (String c r)) as [[[m neg] rest]|]; [|done].
  destruct (u32_max <? m) eqn:E; [done|]. apply N.ltb_ge in E. simpl.
  destruct neg; [|done].
  pose proof (N.mod_lt (u32_max + 1 - m) (u32_max + 1)) as H.
  unfold u32_max in *. lia.
Qed.

(** X21.  Whatever the line is, the two numbers of the patch made from it
    fit in thirty-two bits. *)
Theorem parse_code_u32 (line : string) :
  address (parse_code line) ≤ u32_max ∧ data (parse_code line) ≤ u32_max.
Proof.
  unfold parse_code. cbn [address data new_Code].
  pose proof (extract_hex_bound (istringstream line) 0) as H1.
  destruct (extract_hex (istringstream line) 0) as [ss a].
  pose proof (extract_hex_bound ss 0) as H2.
  destruct (extract_hex ss 0) as [ss' d]. simpl in *.
  unfold u32_max in *. split; [apply H1 | apply H2]; lia.
Qed.

Lemma hex_digit_plain (c : ascii) :
  match hex_digit c with
  | Some d =>
      negb (Ascii.eqb c "-") && negb (Ascii.eqb c "+")
      && negb (Ascii.eqb c "x") && negb (Ascii.eqb c "X")
      && negb (isspace c) && (d <? 16)
      && (if Ascii.eqb c "0" then d =? 0 else true)
  | None => true
  end = true.
Proof. destruct c as [[] [] [] [] [] [] [] []]; reflexivity. Qed.

Lemma hex_digit_facts (c : ascii) (d : N) :
  hex_digit c = Some d →
  Ascii.eqb c "-" = false ∧ Ascii.eqb c "+" = false
  ∧ Ascii.eqb c "x" = false ∧ Ascii.eqb c "X" = false
  ∧ isspace c = false ∧ d < 16
  ∧ (Ascii.eqb c "0" = true → d = 0).
Proof.
  intros H. pose proof (hex_digit_plain c) as P. rewrite H in P.
  repeat (apply andb_true_iff in P as [P ?]).
  repeat match goal with
         | H : negb _ = true |- _ => apply negb_true_iff in H
         end.
  repeat split; try done.
  - by apply N.ltb_lt.
  - intros E. rewrite E in *. by apply N.eqb_eq.
Qed.

Lemma pow16_succ (n : nat) :
  16 ^ N.of_nat (S n) = 16 * 16 ^ N.of_nat n.
Proof. by rewrite Nat2N.inj_succ, N.pow_succ_r'. Qed.

(** The digits of a hexadecimal text, read up to a blank or to the end. *)
Lemma digits_all_hex (s t : string) (acc : N) :
  all_hex s = true → t = EmptyString ∨ (∃ r, t = String " " r) →
  digits acc (s +:+ t)
  = (String.length s, acc * 16 ^ N.of_nat (String.length s) + hex_value s, t).
Proof.
  intros Hs Ht. revert acc. induction s as [|c s IH]; intros acc.
  - rewrite append_nil. simpl. rewrite N.mul_1_r, N.add_0_r.
    destruct Ht as [->|[r ->]]; reflexivity.
  - simpl in Hs. apply andb_true_iff in Hs as [Hc Hs].
    rewrite append_cons. cbn [digits String.length hex_value].
    destruct (hex_digit c) as [d|]; [|discriminate].
    rewrite (IH Hs). rewrite pow16_succ. simpl default.
    f_equal. f_equal. lia.
Qed.

Lemma hex_value_bound (s : string) :
  all_hex s = true → hex_value s < 16 ^ N.of_nat (String.length s).
Proof.
  induction s as [|c s IH]; [done|]. simpl all_hex.
  intros [Hc Hs]%andb_true_iff. cbn [hex_value String.length].
  rewrite pow16_succ. specialize (IH Hs).
  destruct (hex_digit c) as [d|] eqn:E; [|discriminate].
  destruct (hex_digit_facts c d E) as (_ & _ & _ & _ & _ & Hd & _).
  simpl default. nia.
Qed.

Lemma hex_value_u32 (s : string) :
  all_hex s = true → (String.length s ≤ 8)%nat → hex_value s ≤ u32_max.
Proof.
  intros Hs Hl. pose proof (hex_value_bound s Hs) as Hb.
  assert (16 ^ N.of_nat (String.length s) ≤ 16 ^ 8).
  { apply N.pow_le_mono_r; lia. }
  change (16 ^ 8) with 4294967296 in *. unfold u32_max. lia.
Qed.

(** A hexadecimal text is one field, and the field's number is the number
    the text spells. *)
Lemma hex_field_all_hex (s t : string) :
  all_hex s = true → s ≠ EmptyString →
  t = EmptyString ∨ (∃ r, t = String " " r) →
  hex_field (s +:+ t) = Some (hex_value s, false, t).
Proof.
  intros Hs Hne Ht. destruct s as [|c s]; [done|]. clear Hne.
  pose proof Hs as Hs'. simpl in Hs'.
  apply andb_true_iff in Hs' as [Hc Hs'].
  destruct (hex_digit c) as [d|] eqn:E; [|discriminate].
  destruct (hex_digit_facts c d E) as (Hm & Hp & _ & _ & _ & _ & H0).
  unfold hex_field. rewrite append_cons. cbn [sign]. rewrite Hm, Hp.
  cbn [prefix]. destruct (Ascii.eqb c "0") eqn:Ez.
  - assert (Hrest : match s +:+ t with
                    | String x r' =>
                        if Ascii.eqb x "x" || Ascii.eqb x "X"
                        then (false, r') else (true, s +:+ t)
                    | EmptyString => (true, s +:+ t)
                    end = (true, s +:+ t)).
    { destruct s as [|c' s'].
      - rewrite append_nil. destruct Ht as [->|[r ->]]; reflexivity.
      - rewrite append_cons. simpl in Hs'.
        apply andb_true_iff in Hs' as [Hc' _].
        destruct (hex_digit c') as [d'|] eqn:E'; [|discriminate].
        destruct (hex_digit_facts c' d' E') as (_ & _ & Hx & HX & _).
        by rewrite Hx, HX. }
    rewrite Hrest. rewrite (digits_all_hex s t 0 Hs' Ht).
    rewrite andb_false_r. cbn [hex_value]. rewrite E. simpl default.
    rewrite (H0 eq_refl). do 3 f_equal; lia.
  - rewrite <- append_cons. rewrite (digits_all_hex (String c s) t 0 Hs Ht).
    simpl Nat.eqb. simpl andb. cbv iota. do 3 f_equal; lia.
Qed.

Lemma skipws_all_hex (s t : string) :
  all_hex s = true → s ≠ EmptyString → skipws (s +:+ t) = s +:+ t.
Proof.
  intros Hs Hne. destruct s as [|c s]; [done|]. simpl in Hs.
  apply andb_true_iff in Hs as [Hc _].
  destruct (hex_digit c) as [d|] eqn:E; [|discriminate].
  destruct (hex_digit_facts c d E) as (_ & _ & _ & _ & Hsp & _).
  rewrite append_cons. simpl. by rewrite Hsp.
Qed.

Lemma append_nil_r (s : string) : s +:+ EmptyString = s.
Proof. induction s as [|c s IH]; [done|]. by rewrite append_cons, IH. Qed.

(** One extraction from a good stream whose buffer holds, after blanks, a
    hexadecimal text of at most eight digits. *)
Lemma extract_hex_word (s t buf : string) (v0 : N) :
  all_hex s = true → s ≠ EmptyString → (String.length s ≤ 8)%nat →
  t = EmptyString ∨ (∃ r, t = String " " r) →
  skipws buf = s +:+ t →
  extract_hex {| rdbuf := buf; good := true |} v0
  = ({| rdbuf := t; good := nonempty t |}, hex_value s).
Proof.
  intros Hs Hne Hl Ht Hbuf.
  pose proof (hex_field_all_hex s t Hs Hne Ht) as Hf.
  pose proof (hex_value_u32 s Hs Hl) as Hu. apply N.ltb_ge in Hu.
  unfold extract_hex. cbn [rdbuf good]. rewrite Hbuf.
  destruct (s +:+ t) as [|c0 r0] eqn:E.
  { destruct s; [done|discriminate]. }
  by rewrite Hf, Hu.
Qed.

(** X22.  The regular patch line: two texts of one to eight hexadecimal
    digits with a blank between them are decoded to the numbers the two
    texts spell, upper and lower case digits alike. *)
Theorem parse_code_two_words (a v : string) :
  all_hex a = true → all_hex v = true →
  a ≠ EmptyString → v ≠ EmptyString →
  (String.length a ≤ 8)%nat → (String.length v ≤ 8)%nat →
  parse_code (a +:+ " " +:+ v)
  = {| address := hex_value a; data := hex_value v;
       original_line := a +:+ " " +:+ v |}.
Proof.
  intros Ha Hv Hane Hvne Hal Hvl. unfold parse_code, istringstream.
  rewrite (extract_hex_word a (String " " v) _ _ Ha Hane Hal).
  2:{ right. by eexists. }
  2:{ by apply skipws_all_hex. }
  cbn [nonempty address data new_Code].
  rewrite (extract_hex_word v EmptyString _ _ Hv Hvne Hvl).
  2:{ by left. }
  2:{ change (skipws (String " " v)) with (skipws v).
      rewrite <- (append_nil_r v) at 1. by apply skipws_all_hex. }
  done.
Qed.

End PatchNumbers.

(** ** Instances *)

Lemma ParseCodes_one_entry_witness :
  ParseCodes (SetLines ∅ "Gecko" (dollar "A [me]" :: mixed_body)) [] true
  = [ {| codes := [parse_code "01 02"; parse_code "03 04"];
         name := "A"; creator := "me"; notes := ["first"; "second"];
         enabled := false; bootstrap_enabled := false;
         user_defined := true |} ].
Proof.
  refine (eq_trans (ParseCodes_one_entry true ∅ "A [me]" mixed_body _) _).
  - repeat constructor; intros nm; discriminate.
  - reflexivity.
Defined.

Lemma parse_header_shapes_witness :
  name (parse_header "$ Max Lives [someone] rest" true) = "Max Lives"
  ∧ creator (parse_header "$ Max Lives [someone] rest" true) = "someone".
Proof.
  exact (proj2 (proj2 (parse_header_shapes true " Max Lives " "someone"
                         " rest" eq_refl eq_refl))).
Defined.

Lemma FillIni_ParseCodes_saved_witness :
  ParseCodes (FillIni ∅ saved_list) [] true
  = [set_enabled false max_lives; parse_header "$Plain" true].
Proof.
  apply (FillIni_ParseCodes_saved ∅ saved_list).
  repeat constructor.
Defined.

Lemma FillIni_MarkEnabledCodes_witness :
  MarkEnabledCodes (FillIni ∅ three_globals)
                   (map (set_enabled false) three_globals)
  = three_globals.
Proof.
  apply (FillIni_MarkEnabledCodes ∅ three_globals).
  repeat constructor; (reflexivity || discriminate).
Defined.

Lemma BootstrapLocalConfig_MarkEnabledCodes_witness :
  MarkEnabledCodes (BootstrapLocalConfig ∅ seeded) seeded
  = [ set_enabled true (set_bootstrap_enabled true (parse_header "$A" false));
      parse_header "$B" false ].
Proof.
  apply (BootstrapLocalConfig_MarkEnabledCodes ∅ seeded).
  repeat constructor; (reflexivity || discriminate).
Defined.

Lemma MarkBootstrapCodes_BootstrapLocalConfig_witness :
  GetLines (BootstrapLocalConfig ∅
              (MarkBootstrapCodes global_marks_A
                 (ParseCodes global_marks_A [] false)))
           "Gecko_Enabled" = ["$A"].
Proof.
  refine (eq_trans
            (proj1 (MarkBootstrapCodes_BootstrapLocalConfig global_marks_A ∅
                      (ParseCodes global_marks_A [] false) _)) _).
  - repeat constructor.
  - reflexivity.
Defined.

Lemma parse_code_two_words_witness :
  parse_code "04000000 0000001F"
  = {| address := 67108864; data := 31;
       original_line := "04000000 0000001F" |}.
Proof.
  refine (eq_trans (parse_code_two_words "04000000" "0000001F"
                      eq_refl eq_refl _ _ _ _) _);
    [discriminate | discriminate | simpl; lia | simpl; lia | reflexivity].
Defined.

(** ** [ParseCodes]: a patch line that does not scan, in its entry *)

Section MalformedLine.

Variable is_user_ini : bool.

Lemma parse_lines_block (s : string) (body : list string) :
  Forall (λ l, ∀ nm, l ≠ dollar nm) body →
  parse_lines (dollar s :: body) [] is_user_ini
  = if nonempty (header_name (dollar s))
    then [ {| codes := map parse_code
                         (filter (λ l, is_code_line l = true) body);
              name := header_name (dollar s);
              creator := creator (parse_header (dollar s) is_user_ini);
              notes := map substr1
                         (filter (λ l, is_note_line l = true) body);
              enabled := false; bootstrap_enabled := false;
              user_defined := is_user_ini |} ]
    else [].
Proof.
  intros Hbody. unfold parse_lines.
  cbn [fold_left]. unfold parse_line at 2. unfold dollar at 1.
  rewrite Ascii.eqb_refl.
  change (flush ([], new_GeckoCode)) with (@nil GeckoCode).
  rewrite (fold_step_body is_user_ini body [] _ Hbody). unfold flush, dollar.
  destruct (parse_header_eta is_user_ini (String "$" s)) as [cr ->].
  cbn [fst snd name codes notes creator enabled bootstrap_enabled
       user_defined app].
  by destruct (nonempty (header_name (String "$" s))).
Qed.

(** What follows a block of lines is parsed on its own when it is empty or
    starts with a header line. *)
Lemma parse_lines_then (lines post : list string) :
  post = [] ∨ (∃ s' post', post = dollar s' :: post') →
  parse_lines (lines ++ post) [] is_user_ini
  = parse_lines lines [] is_user_ini ++ parse_lines post [] is_user_ini.
Proof.
  intros [->|(s' & post' & ->)].
  - by rewrite !app_nil_r.
  - apply parse_lines_header.
Qed.

Lemma code_line_not_header (line : string) :
  is_code_line line = true → ∀ nm, line ≠ dollar nm.
Proof.
  destruct line as [|c r]; [discriminate|]. simpl.
  intros [H _]%andb_true_iff nm [= -> _]. discriminate.
Qed.

Lemma code_line_not_note (line : string) :
  is_code_line line = true → is_note_line line = false.
Proof.
  destruct line as [|c r]; [done|]. simpl.
  by intros [_ H%negb_true_iff]%andb_true_iff.
Qed.

(** The entries of a section in which a patch line stands in the body of
    an entry: those of the lines before the header line, the entry with
    the patch of the line between the patches of its neighbours, and those
    of the lines after the body. *)
Lemma parse_lines_patch_line (pre body1 body2 post : list string)
    (s line : string) :
  is_code_line line = true →
  Forall (λ l, ∀ nm, l ≠ dollar nm) body1 →
  Forall (λ l, ∀ nm, l ≠ dollar nm) body2 →
  post = [] ∨ (∃ s' post', post = dollar s' :: post') →
  parse_lines (pre ++ dollar s :: body1 ++ line :: body2 ++ post) []
              is_user_ini
  = parse_lines pre [] is_user_ini
    ++ block_entry is_user_ini s body1 (parse_code line) body2
    ++ parse_lines post [] is_user_ini.
Proof.
  intros Hline H1 H2 Hpost. rewrite parse_lines_header. f_equal.
  replace (dollar s :: body1 ++ line :: body2 ++ post)
    with ((dollar s :: body1 ++ line :: body2) ++ post)
    by (simpl; by rewrite <- app_assoc).
  rewrite (parse_lines_then _ _ Hpost). f_equal.
  rewrite parse_lines_block.
  2:{ apply Forall_app. split; [done|]. constructor; [|done].
      by apply code_line_not_header. }
  unfold block_entry. rewrite !filter_app, !filter_cons.
  rewrite decide_True by done.
  rewrite decide_False by (by rewrite (code_line_not_note _ Hline)).
  by rewrite map_app.
Qed.

(** The first number of a patch line that starts with a hexadecimal text
    of at most eight digits and a blank is the number the text spells,
    whatever follows the blank. *)
Lemma parse_code_first_word (a rest : string) :
  all_hex a = true → a ≠ EmptyString → (String.length a ≤ 8)%nat →
  address (parse_code (a +:+ String " " rest)) = hex_value a.
Proof.
  intros Ha Hne Hl. unfold parse_code, istringstream.
  rewrite (extract_hex_word a (String " " rest) _ _ Ha Hne Hl).
  2:{ right. by eexists. }
  2:{ by apply skipws_all_hex. }
  by destruct (extract_hex _ _) as [ss d].
Qed.

(** A patch line before every header line is lost with the nameless entry
    it is appended to. *)
Lemma parse_lines_before_header (before after : list string) (line : string) :
  is_code_line line = true →
  Forall (λ l, ∀ nm, l ≠ dollar nm) before →
  parse_lines (before ++ line :: after) [] is_user_ini
  = parse_lines after [] is_user_ini.
Proof.
  intros Hline Hbefore.
  replace (before ++ line :: after) with ((before ++ [line]) ++ after)
    by (by rewrite <- app_assoc).
  unfold parse_lines. rewrite fold_left_app.
  destruct (before_first_header is_user_ini (before ++ [line])
              ([], new_GeckoCode)) as [E1 E2].
  { apply Forall_app. split; [done|]. constructor; [|done].
    by apply code_line_not_header. }
  by apply nameless_dropped.
Qed.

(** C7.  A patch line whose text does not scan as two hexadecimal numbers
    makes a patch like any other patch line.  In the body of an entry,
    between lines none of which is a header line, it puts one patch after
    the patches of the lines before it and before the patches of the lines
    after it; the patch has the whole line as its [original_line], zero as
    its second number, and as its first number zero when the text does not
    start with a number and the number spelled when the text starts with
    up to eight hexadecimal digits and a blank.  The entries before, the
    other patches and the notes of the entry, and the entries after are
    what they are with any other patch line in its place, and a patch line
    before every header line leaves no trace, scanned or not. *)
Theorem ParseCodes_malformed_line (ini : IniFile.t)
    (pre body1 body2 post : list string) (s line : string) :
  is_code_line line = true →
  scans_two_hex line = false →
  Forall (λ l, ∀ nm, l ≠ dollar nm) body1 →
  Forall (λ l, ∀ nm, l ≠ dollar nm) body2 →
  post = [] ∨ (∃ s' post', post = dollar s' :: post') →
  ParseCodes
    (SetLines ini "Gecko" (pre ++ dollar s :: body1 ++ line :: body2 ++ post))
    [] is_user_ini
  = ParseCodes (SetLines ini "Gecko" pre) [] is_user_ini
    ++ block_entry is_user_ini s body1
         {| address := address (parse_code line); data := 0;
            original_line := line |} body2
    ++ ParseCodes (SetLines ini "Gecko" post) [] is_user_ini
  ∧ (∀ line', is_code_line line' = true →
       ParseCodes
         (SetLines ini "Gecko"
            (pre ++ dollar s :: body1 ++ line' :: body2 ++ post))
         [] is_user_ini
       = ParseCodes (SetLines ini "Gecko" pre) [] is_user_ini
         ++ block_entry is_user_ini s body1 (parse_code line') body2
         ++ ParseCodes (SetLines ini "Gecko" post) [] is_user_ini)
  ∧ (scans_first line = false → address (parse_code line) = 0)
  ∧ (∀ a rest, line = a +:+ String " " rest →
       all_hex a = true → a ≠ EmptyString → (String.length a ≤ 8)%nat →
       address (parse_code line) = hex_value a)
  ∧ (∀ before after,
       Forall (λ l, ∀ nm, l ≠ dollar nm) before →
       ParseCodes (SetLines ini "Gecko" (before ++ line :: after)) []
                  is_user_ini
       = ParseCodes (SetLines ini "Gecko" after) [] is_user_ini).
Proof.
  intros Hline Hscan H1 H2 Hpost.
  destruct (parse_code_malformed line Hscan) as [Hd Ha].
  assert (Hc : parse_code line
               = {| address := address (parse_code line); data := 0;
                    original_line := line |}).
  { pose proof (parse_code_original_line line) as Ho.
    destruct (parse_code line). simpl in *. by subst. }
  rewrite !ParseCodes_SetLines.
  split; [|split; [|split; [|split]]].
  - rewrite <- Hc. by apply parse_lines_patch_line.
  - intros line' Hline'. rewrite !ParseCodes_SetLines.
    by apply parse_lines_patch_line.
  - exact Ha.
  - intros a rest -> Hhex Hne Hl. by apply parse_code_first_word.
  - intros before after Hbefore. rewrite !ParseCodes_SetLines.
    by apply parse_lines_before_header.
Qed.

End MalformedLine.

Lemma ParseCodes_malformed_line_witness :
  is_code_line "12 zz" = true ∧ scans_two_hex "12 zz" = false
  ∧ ParseCodes
      (SetLines ∅ "Gecko"
         ["$A"; "01 02"; "$B [me]"; "03 04"; "*first"; "12 zz"; "05 06";
          "*second"; "$C"; "07 08"])
      [] true
    = [ {| codes := [ {| address := 1; data := 2; original_line := "01 02" |} ];
           name := "A"; creator := ""; notes := [];
           enabled := false; bootstrap_enabled := false;
           user_defined := true |};
        {| codes := [ {| address := 3; data := 4; original_line := "03 04" |};
                      {| address := 18; data := 0; original_line := "12 zz" |};
                      {| address := 5; data := 6; original_line := "05 06" |} ];
           name := "B"; creator := "me"; notes := ["first"; "second"];
           enabled := false; bootstrap_enabled := false;
           user_defined := true |};
        {| codes := [ {| address := 7; data := 8; original_line := "07 08" |} ];
           name := "C"; creator := ""; notes := [];
           enabled := false; bootstrap_enabled := false;
           user_defined := true |} ].
Proof.
  split; [reflexivity|]. split; [reflexivity|].
  refine (eq_trans
            (proj1 (ParseCodes_malformed_line true ∅ ["$A"; "01 02"]
                      ["03 04"; "*first"] ["05 06"; "*second"]
                      ["$C"; "07 08"] "B [me]" "12 zz"
                      eq_refl eq_refl _ _ _)) _).
  - repeat constructor; intros nm; discriminate.
  - repeat constructor; intros nm; discriminate.
  - right. by exists "C", ["07 08"].
  - reflexivity.
Defined.
